(** * Task_Scheduler (planit-next): playback and Pomodoro controllers

    A shallow embedding of the two React state machines of the repository:

    - [Music]: [MusicPlayerProvider.tsx], the playlist / playback controller;
    - [Pomodoro]: the Pomodoro page ([PomodoroPage]), its timer, its session
      switching, its settings handlers and the history load effect.

    React's [useState] is modelled with its two sides kept apart: a handler
    READS the state variables of the render that created it (constants of
    that render, the [r] argument of every handler below) and WRITES through
    setters, whose effect lands in the next render (the state threaded by the
    [Handler] monad).  A [set...] followed by a read of the same variable in
    one handler therefore still sees the old value, as in the source.
    Mutable refs ([useRef]) and the browser objects are read and written in
    place.

    Numbers are JavaScript numbers holding integers, modelled by [Z]. *)

From Stdlib Require Import ZArith Lia DecimalString.
From stdpp Require Import base gmap strings list.

Local Open Scope Z_scope.

(** * JavaScript preliminaries *)
Module Js.

Inductive Error := TypeError | SyntaxError.

(** Outcome of running a piece of code: a value, or a thrown error. *)
Inductive Completion (A : Type) :=
| Normal (a : A)
| Throw (e : Error).
Arguments Normal {A} a.
Arguments Throw {A} e.

(** A handler over a world [W]: what was written before a throw stays
    written (queued setter calls are not rolled back). *)
Definition Handler (W A : Type) : Type := W → Completion A * W.

Definition ret {W A} (a : A) : Handler W A := λ w, (Normal a, w).

Definition bind {W A B} (f : A → Handler W B) (m : Handler W A) : Handler W B :=
  λ w, match m w with
       | (Normal a, w') => f a w'
       | (Throw e, w') => (Throw e, w')
       end.

Definition throw {W A} (e : Error) : Handler W A := λ w, (Throw e, w).

Definition gets {W A} (f : W → A) : Handler W A := λ w, (Normal (f w), w).

Definition modify {W} (f : W → W) : Handler W unit := λ w, (Normal tt, f w).

(** [try { m } catch (e) { h }] *)
Definition try_catch {W A} (m : Handler W A) (h : Error → Handler W A) : Handler W A :=
  λ w, match m w with
       | (Normal a, w') => (Normal a, w')
       | (Throw e, w') => h e w'
       end.

(** [a % b] for a divisor known to be non-zero: the remainder takes the
    sign of the dividend. *)
Definition rem (a b : Z) : Z := Z.rem a b.

(** [a % b === 0]; with [b = 0] the remainder is NaN, which is not [0]. *)
Definition rem_is_zero (a b : Z) : bool :=
  if b =? 0 then false else Z.rem a b =? 0.

(** [arr[i]]: [undefined] (here [None]) outside of [0 .. length-1]. *)
Definition index {A} (arr : list A) (i : Z) : option A :=
  if 0 <=? i then arr !! Z.to_nat i else None.

(** [arr.length] *)
Definition length {A} (arr : list A) : Z := Z.of_nat (List.length arr).

End Js.

#[global] Instance handler_ret {W} : MRet (Js.Handler W) := @Js.ret W.
#[global] Instance handler_bind {W} : MBind (Js.Handler W) := @Js.bind W.

(** * The playback controller ([MusicPlayerProvider.tsx]) *)
Module Music.

(** A [File]: an opaque blob with a display name. *)
Record File := { name : string; contents : string }.

(** What the provider asks of its [<audio>] element, in order.  A source is
    an object URL (numbered in creation order) or the empty string. *)
Inductive AudioCall :=
| SetSrc (url : option nat)
| Load
| Play
| Pause
| SetCurrentTime (t : Z).

(** The four [useState] variables. *)
Record State := {
  playlist : list File;
  currentIndex : Z;
  isPlaying : bool;
  fileName : string
}.

(** The state together with what lives outside React: the audio element
    behind [audioRef] ([None] while [audioRef.current] is null) with the
    calls made on it, and the object URLs created so far (none is ever
    revoked by the source). *)
Record World := {
  hooks : State;
  audioRef : option (list AudioCall);
  objectURLs : list File
}.

Abbreviation Handler := (Js.Handler World).

(** A bare [return;] *)
Definition done : Handler unit := Js.ret tt.

Definition on_hooks (f : State → State) : Handler unit :=
  Js.modify (λ w, {| hooks := f (hooks w); audioRef := audioRef w;
                     objectURLs := objectURLs w |}).

Definition setPlaylist (files : list File) : Handler unit :=
  on_hooks (λ s, {| playlist := files; currentIndex := currentIndex s;
                    isPlaying := isPlaying s; fileName := fileName s |}).

Definition setCurrentIndex (i : Z) : Handler unit :=
  on_hooks (λ s, {| playlist := playlist s; currentIndex := i;
                    isPlaying := isPlaying s; fileName := fileName s |}).

Definition setIsPlaying (b : bool) : Handler unit :=
  on_hooks (λ s, {| playlist := playlist s; currentIndex := currentIndex s;
                    isPlaying := b; fileName := fileName s |}).

Definition setFileName (n : string) : Handler unit :=
  on_hooks (λ s, {| playlist := playlist s; currentIndex := currentIndex s;
                    isPlaying := isPlaying s; fileName := n |}).

(** [URL.createObjectURL(file)]: a fresh URL each time. *)
Definition createObjectURL (f : File) : Handler nat :=
  λ w, (Js.Normal (List.length (objectURLs w)),
        {| hooks := hooks w; audioRef := audioRef w;
           objectURLs := objectURLs w ++ [f] |}).

(** A call on [audioRef.current], skipped when the ref is null: the
    [audioRef.current?.f()] and [if (audioRef.current) { ... }] of the
    source. *)
Definition audio (c : AudioCall) : Handler unit :=
  Js.modify (λ w, {| hooks := hooks w;
                     audioRef := (λ calls, calls ++ [c]) <$> audioRef w;
                     objectURLs := objectURLs w |}).

(** Whether [audioRef.current] is non-null. *)
Definition mounted : Handler bool :=
  Js.gets (λ w, if audioRef w is Some _ then true else false).

(** [song.name] with [song] undefined: a TypeError, raised after the
    setter calls that precede it. *)
Definition undefinedSong : Handler unit := Js.throw Js.TypeError.

Definition loadPlaylist (files : list File) (r : State) : Handler unit :=
  match files with
  | [] => done
  | first :: _ =>
      setPlaylist files;;
      setCurrentIndex 0;;
      setFileName (name first);;
      firstUrl ← createObjectURL first;
      audio (SetSrc (Some firstUrl));;
      audio Load;;
      setIsPlaying false
  end.

Definition playCurrent (r : State) : Handler unit :=
  present ← mounted;
  match Js.index (playlist r) (currentIndex r), present return Handler unit with
  | Some song, true =>
      url ← createObjectURL song;
      audio (SetSrc (Some url));;
      audio Play;;
      setFileName (name song);;
      setIsPlaying true
  | _, _ => done
  end.

Definition pauseMusic (r : State) : Handler unit :=
  audio Pause;;
  setIsPlaying false.

Definition resumeMusic (r : State) : Handler unit :=
  audio Play;;
  setIsPlaying true.

Definition stopMusic (r : State) : Handler unit :=
  present ← mounted;
  if (present : bool) return Handler unit then
    audio Pause;;
    audio (SetCurrentTime 0);;
    audio (SetSrc None);;
    audio Load;;
    setIsPlaying false;;
    setFileName "";;
    setPlaylist [];;
    setCurrentIndex 0
  else done.

Definition nextSong (r : State) : Handler unit :=
  if Js.length (playlist r) =? 0 then done
  else
    let nextIndex := Js.rem (currentIndex r + 1) (Js.length (playlist r)) in
    setCurrentIndex nextIndex;;
    match Js.index (playlist r) nextIndex with
    | Some song =>
        setFileName (name song);;
        url ← createObjectURL song;
        audio (SetSrc (Some url));;
        audio Play;;
        setIsPlaying true
    | None => undefinedSong
    end.

Definition prevSong (r : State) : Handler unit :=
  if Js.length (playlist r) =? 0 then done
  else
    let prevIndex :=
      Js.rem (currentIndex r - 1 + Js.length (playlist r)) (Js.length (playlist r)) in
    setCurrentIndex prevIndex;;
    match Js.index (playlist r) prevIndex with
    | Some song =>
        setFileName (name song);;
        url ← createObjectURL song;
        audio (SetSrc (Some url));;
        audio Play;;
        setIsPlaying true
    | None => undefinedSong
    end.

(** The listener of the audio element's "ended" event. *)
Definition onEnd (r : State) : Handler unit :=
  if 0 <? Js.length (playlist r) then
    let nextIndex := currentIndex r + 1 in
    if nextIndex <? Js.length (playlist r) then
      setCurrentIndex nextIndex;;
      match Js.index (playlist r) nextIndex with
      | Some song =>
          setFileName (name song);;
          url ← createObjectURL song;
          audio (SetSrc (Some url));;
          audio Play;;
          setIsPlaying true
      | None => undefinedSong
      end
    else
      setIsPlaying false
  else done.

(** An event reaches the handler of the current render; the writes of the
    handler make the next render. *)
Definition dispatch (h : State → Handler unit) (w : World) : World :=
  (h (hooks w) w).2.

(** The "ended" event: the effect registers [onEnd] only when the audio
    element exists, and re-registers it whenever [currentIndex] or
    [playlist] changes, so the listener always belongs to the current
    render. *)
Definition ended (w : World) : World :=
  match audioRef w with
  | Some _ => dispatch onEnd w
  | None => w
  end.

(** The transport operations of the context, and the automatic advance. *)
Inductive Op :=
| OpLoadPlaylist (files : list File)
| OpPlayCurrent
| OpPause
| OpResume
| OpStop
| OpNext
| OpPrevious
| OpAutoAdvance.

Definition step (op : Op) (w : World) : World :=
  match op with
  | OpLoadPlaylist files => dispatch (loadPlaylist files) w
  | OpPlayCurrent => dispatch playCurrent w
  | OpPause => dispatch pauseMusic w
  | OpResume => dispatch resumeMusic w
  | OpStop => dispatch stopMusic w
  | OpNext => dispatch nextSong w
  | OpPrevious => dispatch prevSong w
  | OpAutoAdvance => ended w
  end.

(** The provider as first rendered and mounted. *)
Definition initial : World :=
  {| hooks := {| playlist := []; currentIndex := 0; isPlaying := false;
                 fileName := "" |};
     audioRef := Some [];
     objectURLs := [] |}.

(** [currentIndex] is a valid index into [playlist] whenever the playlist
    is non-empty. *)
Definition valid_index (s : State) : Prop :=
  playlist s ≠ [] → 0 ≤ currentIndex s < Js.length (playlist s).

(** [fileName] is the name of the item at [currentIndex], when there is
    one: what every operation that sets either of them establishes. *)
Definition named (s : State) : Prop :=
  ∀ song, Js.index (playlist s) (currentIndex s) = Some song → fileName s = name song.

(** Three tracks, and the provider after they were picked. *)
Definition trackA : File := {| name := "a.mp3"; contents := "A" |}.
Definition trackB : File := {| name := "b.mp3"; contents := "B" |}.
Definition trackC : File := {| name := "c.mp3"; contents := "C" |}.

Definition picked : World :=
  step (OpLoadPlaylist [trackA; trackB; trackC]) initial.

(** ... with the last track playing. *)
Definition lastPlaying : World := step OpPrevious picked.

(** ** The controls wired to the provider *)

(** [handleFiles] of [MusicFilePicker], [files] being [e.target.files]
    ([None] for null); [Array.from] keeps the files and their order. *)
Definition handleFiles (files : option (list File)) (r : State) : Handler unit :=
  match files with
  | None => done
  | Some fileArray => loadPlaylist fileArray r
  end.

(** The music button of the Pomodoro page:
    [onClick={isPlaying ? pauseMusic : resumeMusic}]. *)
Definition pageButton (r : State) : Handler unit :=
  if isPlaying r then pauseMusic r else resumeMusic r.

(** The button of [FloatingMusicBar]: the pause button is rendered while
    playing, the resume button otherwise. *)
Definition barButton (r : State) : Handler unit :=
  if isPlaying r then pauseMusic r else resumeMusic r.

(** What the user and the audio element can do to the provider: the three
    components of the repository wire nothing else to it. *)
Inductive Control :=
| FilesPicked (files : option (list File))
| PageButtonClicked
| BarButtonClicked
| BarCloseClicked
| MediaEnded.

(** The page button is [disabled={!fileName}] and the bar renders nothing
    ([if (!fileName) return null]) while [fileName] is empty: no click
    reaches them then. *)
Definition control (c : Control) (w : World) : World :=
  match c with
  | FilesPicked files => dispatch (handleFiles files) w
  | PageButtonClicked =>
      match fileName (hooks w) with
      | "" => w
      | _ => dispatch pageButton w
      end
  | BarButtonClicked =>
      match fileName (hooks w) with
      | "" => w
      | _ => dispatch barButton w
      end
  | BarCloseClicked =>
      match fileName (hooks w) with
      | "" => w
      | _ => dispatch stopMusic w
      end
  | MediaEnded => ended w
  end.

(** The source that the calls made so far leave on the audio element: the
    argument of the last [src = ...], if any. *)
Fixpoint lastSrc (calls : list AudioCall) : option (option nat) :=
  match calls with
  | [] => None
  | c :: rest =>
      match lastSrc rest with
      | Some url => Some url
      | None => match c with
                | SetSrc url => Some url
                | _ => None
                end
      end
  end.

(** The audio element has, as its source, an object URL made from the item
    at [currentIndex]. *)
Definition plays_current (w : World) : Prop :=
  ∀ calls, audioRef w = Some calls →
    ∃ url song,
      lastSrc calls = Some (Some url)
      ∧ objectURLs w !! url = Some song
      ∧ Js.index (playlist (hooks w)) (currentIndex (hooks w)) = Some song.

(** With nothing loaded the display name is empty and the index is 0. *)
Definition cleared (s : State) : Prop :=
  playlist s = [] → fileName s = "" ∧ currentIndex s = 0.

(** Nothing is marked as playing unless something is loaded. *)
Definition audible (s : State) : Prop :=
  isPlaying s = true → playlist s ≠ [].

(** The whole world after an advance to the item [song] at index [i]. *)
Definition advanced (w : World) (i : Z) (song : File) : World :=
  {| hooks := {| playlist := playlist (hooks w); currentIndex := i;
                 isPlaying := true; fileName := name song |};
     audioRef := (λ calls, (calls ++ [SetSrc (Some (List.length (objectURLs w)))])
                             ++ [Play]) <$> audioRef w;
     objectURLs := objectURLs w ++ [song] |}.

(** A run of operations, and a run of controls. *)
Definition play (ops : list Op) (w : World) : World :=
  foldl (λ w op, step op w) w ops.

Definition operate (controls : list Control) (w : World) : World :=
  foldl (λ w c, control c w) w controls.

End Music.

(** * The Pomodoro page ([PomodoroPage]) *)
Module Pomodoro.

(** Values that [JSON.parse] produces and that the history holds at run
    time (the TypeScript types are erased).  An object is a finite map
    from property names to values; a property holding [undefined] is
    identified with an absent one, which no read of this program and no
    [JSON.stringify] tells apart. *)
#[local] Set Warnings "-register-all".
Inductive JsValue :=
| JsNull
| JsBool (b : bool)
| JsNumber (n : Z)
| JsString (s : string)
| JsArray (items : list JsValue)
| JsObject (props : gmap string JsValue).

Record PomodoroSettings := {
  workDuration : Z;
  shortBreakDuration : Z;
  longBreakDuration : Z;
  longBreakInterval : Z
}.

(** [Task] of [@/types], of which the page uses [id] and [title]. *)
Record Task := { id : string; title : string }.

Inductive SessionType := focus | short_break | long_break.

Record PomodoroSession := {
  session_id : Z;
  date : string;
  type : SessionType;
  duration : Z;
  taskId : option string;
  taskTitle : string
}.

Definition typeTag (t : SessionType) : string :=
  match t with
  | focus => "focus"
  | short_break => "short_break"
  | long_break => "long_break"
  end.

(** The object literal that a [PomodoroSession] is at run time. *)
Definition sessionObject (s : PomodoroSession) : JsValue :=
  let props : gmap string JsValue :=
    <["id" := JsNumber (session_id s)]>
    (<["date" := JsString (date s)]>
    (<["type" := JsString (typeTag (type s))]>
    (<["duration" := JsNumber (duration s)]>
    (<["taskTitle" := JsString (taskTitle s)]> ∅)))) in
  JsObject (match taskId s with
            | Some t => <["taskId" := JsString t]> props
            | None => props
            end).

(** The [useState] variables of the page ([showInstructions], which only
    opens a modal, is left out). *)
Record State := {
  timeLeft : Z;
  isRunning : bool;
  isBreak : bool;
  isLongBreak : bool;
  selectedTaskId : option string;
  tasks : list Task;
  history : list JsValue;
  sessionCount : Z;
  settings : PomodoroSettings
}.

(** What the page does to the outside, in order. *)
Inductive Effect :=
| Tone
| Alert (message : string).

(** An item of [localStorage]: the text of a JSON value, or any other
    text. *)
Inductive Stored :=
| JsonText (v : JsValue)
| OtherText (s : string).

(** The state, the refs and the browser.  [intervals] maps the handle of
    every active interval to the render whose [completeSession] its
    callback calls; [timers] counts the intervals created so far. *)
Record World := {
  hooks : State;
  timerRef : option nat;
  isRunningRef : bool;
  audioContextRef : bool;
  intervals : gmap nat State;
  timers : nat;
  localStorage : gmap string Stored;
  effects : list Effect
}.

Abbreviation Handler := (Js.Handler World).

Definition done : Handler unit := Js.ret tt.

Definition on_hooks (f : State → State) : Handler unit :=
  Js.modify (λ w, {| hooks := f (hooks w); timerRef := timerRef w;
                     isRunningRef := isRunningRef w;
                     audioContextRef := audioContextRef w;
                     intervals := intervals w; timers := timers w;
                     localStorage := localStorage w; effects := effects w |}).

Definition setTimeLeft (t : Z) : Handler unit :=
  on_hooks (λ s, {| timeLeft := t; isRunning := isRunning s; isBreak := isBreak s;
                    isLongBreak := isLongBreak s; selectedTaskId := selectedTaskId s;
                    tasks := tasks s; history := history s;
                    sessionCount := sessionCount s; settings := settings s |}).

Definition setIsRunning (b : bool) : Handler unit :=
  on_hooks (λ s, {| timeLeft := timeLeft s; isRunning := b; isBreak := isBreak s;
                    isLongBreak := isLongBreak s; selectedTaskId := selectedTaskId s;
                    tasks := tasks s; history := history s;
                    sessionCount := sessionCount s; settings := settings s |}).

Definition setIsBreak (b : bool) : Handler unit :=
  on_hooks (λ s, {| timeLeft := timeLeft s; isRunning := isRunning s; isBreak := b;
                    isLongBreak := isLongBreak s; selectedTaskId := selectedTaskId s;
                    tasks := tasks s; history := history s;
                    sessionCount := sessionCount s; settings := settings s |}).

Definition setIsLongBreak (b : bool) : Handler unit :=
  on_hooks (λ s, {| timeLeft := timeLeft s; isRunning := isRunning s;
                    isBreak := isBreak s; isLongBreak := b;
                    selectedTaskId := selectedTaskId s;
                    tasks := tasks s; history := history s;
                    sessionCount := sessionCount s; settings := settings s |}).

Definition setSelectedTaskId (t : option string) : Handler unit :=
  on_hooks (λ s, {| timeLeft := timeLeft s; isRunning := isRunning s;
                    isBreak := isBreak s; isLongBreak := isLongBreak s;
                    selectedTaskId := t;
                    tasks := tasks s; history := history s;
                    sessionCount := sessionCount s; settings := settings s |}).

Definition setTasks (ts : list Task) : Handler unit :=
  on_hooks (λ s, {| timeLeft := timeLeft s; isRunning := isRunning s;
                    isBreak := isBreak s; isLongBreak := isLongBreak s;
                    selectedTaskId := selectedTaskId s;
                    tasks := ts; history := history s;
                    sessionCount := sessionCount s; settings := settings s |}).

Definition setHistory (h : list JsValue) : Handler unit :=
  on_hooks (λ s, {| timeLeft := timeLeft s; isRunning := isRunning s;
                    isBreak := isBreak s; isLongBreak := isLongBreak s;
                    selectedTaskId := selectedTaskId s;
                    tasks := tasks s; history := h;
                    sessionCount := sessionCount s; settings := settings s |}).

Definition setSessionCount (n : Z) : Handler unit :=
  on_hooks (λ s, {| timeLeft := timeLeft s; isRunning := isRunning s;
                    isBreak := isBreak s; isLongBreak := isLongBreak s;
                    selectedTaskId := selectedTaskId s;
                    tasks := tasks s; history := history s;
                    sessionCount := n; settings := settings s |}).

Definition setSettings (p : PomodoroSettings) : Handler unit :=
  on_hooks (λ s, {| timeLeft := timeLeft s; isRunning := isRunning s;
                    isBreak := isBreak s; isLongBreak := isLongBreak s;
                    selectedTaskId := selectedTaskId s;
                    tasks := tasks s; history := history s;
                    sessionCount := sessionCount s; settings := p |}).

(** ** The browser *)

(** [setInterval(callback, 1000)] called in render [r]: a new handle, whose
    callback reaches the [completeSession] of [r]. *)
Definition setInterval (r : State) : Handler nat :=
  λ w, let h := S (timers w) in
       (Js.Normal h,
        {| hooks := hooks w; timerRef := timerRef w;
           isRunningRef := isRunningRef w; audioContextRef := audioContextRef w;
           intervals := <[h := r]> (intervals w); timers := h;
           localStorage := localStorage w; effects := effects w |}).

Definition clearInterval (h : nat) : Handler unit :=
  Js.modify (λ w, {| hooks := hooks w; timerRef := timerRef w;
                     isRunningRef := isRunningRef w;
                     audioContextRef := audioContextRef w;
                     intervals := delete h (intervals w); timers := timers w;
                     localStorage := localStorage w; effects := effects w |}).

(** [timerRef.current = h] *)
Definition setTimerRef (h : nat) : Handler unit :=
  Js.modify (λ w, {| hooks := hooks w; timerRef := Some h;
                     isRunningRef := isRunningRef w;
                     audioContextRef := audioContextRef w;
                     intervals := intervals w; timers := timers w;
                     localStorage := localStorage w; effects := effects w |}).

Definition emit (e : Effect) : Handler unit :=
  Js.modify (λ w, {| hooks := hooks w; timerRef := timerRef w;
                     isRunningRef := isRunningRef w;
                     audioContextRef := audioContextRef w;
                     intervals := intervals w; timers := timers w;
                     localStorage := localStorage w;
                     effects := effects w ++ [e] |}).

Definition alert (message : string) : Handler unit := emit (Alert message).

(** [localStorage.setItem(key, JSON.stringify(v))] *)
Definition localStorage_setItem (key : string) (v : JsValue) : Handler unit :=
  Js.modify (λ w, {| hooks := hooks w; timerRef := timerRef w;
                     isRunningRef := isRunningRef w;
                     audioContextRef := audioContextRef w;
                     intervals := intervals w; timers := timers w;
                     localStorage := <[key := JsonText v]> (localStorage w);
                     effects := effects w |}).

(** [JSON.parse(text)] *)
Definition JSON_parse (text : Stored) : Handler JsValue :=
  match text with
  | JsonText v => mret v
  | OtherText _ => Js.throw Js.SyntaxError
  end.

(** ** Settings *)

(** [fetchSettings] from the point where the response has arrived:
    [response] is [data.pomodoroSettings] of an ok response, [None] for a
    failed fetch, a response that is not ok or one without that field. *)
Definition fetchSettings (response : option PomodoroSettings) : Handler unit :=
  match response with
  | Some pomodoroSettings =>
      setSettings pomodoroSettings;;
      running ← Js.gets isRunningRef;
      if negb running return Handler unit then
        setTimeLeft (workDuration pomodoroSettings * 60)
      else done
  | None => done
  end.

(** Listener of the [pomodoroSettingsChanged] event, [detail] being
    [event.detail]. *)
Definition handleSettingsChange (detail : PomodoroSettings) : Handler unit :=
  setSettings detail;;
  running ← Js.gets isRunningRef;
  if negb running return Handler unit then
    setTimeLeft (workDuration detail * 60)
  else done.

(** [fetchTasks] from the point where the response has arrived ([None]
    for a failed fetch or a response that is not ok). *)
Definition fetchTasks (response : option (list Task)) : Handler unit :=
  match response with
  | Some data => setTasks data
  | None => done
  end.

(** [onChange] of the task select, [value] being [e.target.value]. *)
Definition taskSelected (value : string) : Handler unit :=
  setSelectedTaskId (match value with "" => None | _ => Some value end).

(** ** History load (in the mount effect) *)

(** [s.type === 'break' ? { ...s, type: 'short_break' } : s]; reading a
    property of [null] throws. *)
Definition migrate (s : JsValue) : Handler JsValue :=
  match s with
  | JsNull => Js.throw Js.TypeError
  | JsObject props =>
      match props !! "type" with
      | Some (JsString t) =>
          if String.eqb t "break"
          then mret (JsObject (<["type" := JsString "short_break"]> props))
          else mret s
      | _ => mret s
      end
  | _ => mret s
  end.

Definition loadHistory : Handler unit :=
  savedHistory ← Js.gets (λ w, localStorage w !! "pomodoroHistory");
  match savedHistory return Handler unit with
  | None | Some (OtherText "") => done
  | Some text =>
      Js.try_catch
        (parsed ← JSON_parse text;
         migrated ← match parsed return Handler (list JsValue) with
                    | JsArray items => mapM migrate items
                    | _ => mret []
                    end;
         setHistory migrated)
        (λ e, done)
  end.

(** ** The timer *)

Definition playNotificationSound : Handler unit :=
  ctx ← Js.gets audioContextRef;
  if (ctx : bool) return Handler unit then emit Tone else done.

Definition pauseTimer (r : State) : Handler unit :=
  setIsRunning false;;
  current ← Js.gets timerRef;
  match current return Handler unit with
  | Some h => clearInterval h
  | None => done
  end.

Definition startTimer (r : State) : Handler unit :=
  setIsRunning true;;
  h ← setInterval r;
  setTimerRef h.

Definition toggleTimer (r : State) : Handler unit :=
  if isRunning r then pauseTimer r else startTimer r.

Definition resetTimer (r : State) : Handler unit :=
  pauseTimer r;;
  let newTime :=
    if isBreak r
    then (if isLongBreak r then longBreakDuration (settings r)
          else shortBreakDuration (settings r)) * 60
    else workDuration (settings r) * 60 in
  setTimeLeft newTime.

Definition switchSession (r : State) : Handler unit :=
  let wasBreak := isBreak r in
  setIsBreak (negb wasBreak);;
  if wasBreak then
    setIsLongBreak false;;
    setTimeLeft (workDuration (settings r) * 60)
  else
    let breakDuration :=
      if isLongBreak r then longBreakDuration (settings r)
      else shortBreakDuration (settings r) in
    setTimeLeft (breakDuration * 60).

(** [now] is [Date.now()] and [iso] is [new Date().toISOString()] at the
    time of the call. *)
Definition completeSession (now : Z) (iso : string) (r : State) : Handler unit :=
  pauseTimer r;;
  playNotificationSound;;
  let selectedTask :=
    find (λ t, bool_decide (Some (id t) = selectedTaskId r)) (tasks r) in
  let sessionDuration :=
    if isBreak r
    then (if isLongBreak r then longBreakDuration (settings r)
          else shortBreakDuration (settings r))
    else workDuration (settings r) in
  let newSession :=
    {| session_id := now;
       date := iso;
       type := if isBreak r then (if isLongBreak r then long_break else short_break)
               else focus;
       duration := sessionDuration;
       taskId := match selectedTaskId r with
                 | Some "" | None => None
                 | Some t => Some t
                 end;
       taskTitle := match selectedTask with
                    | Some t => title t
                    | None => "No task linked"
                    end |} in
  let updatedHistory := sessionObject newSession :: history r in
  setHistory updatedHistory;;
  localStorage_setItem "pomodoroHistory" (JsArray updatedHistory);;
  (if negb (isBreak r) then
     let newSessionCount := sessionCount r + 1 in
     setSessionCount newSessionCount;;
     if Js.rem_is_zero newSessionCount (longBreakInterval (settings r))
     then setIsLongBreak true
     else done
   else done);;
  alert (if isBreak r then "Break complete! Time to focus."
         else if isLongBreak r then "Great! Long break complete."
         else "Focus session complete! Take a break.");;
  switchSession r.

Definition selectPomodoro (r : State) : Handler unit :=
  pauseTimer r;;
  setIsBreak false;;
  setIsLongBreak false;;
  setTimeLeft (workDuration (settings r) * 60).

Definition selectShortBreak (r : State) : Handler unit :=
  pauseTimer r;;
  setIsBreak true;;
  setIsLongBreak false;;
  setTimeLeft (shortBreakDuration (settings r) * 60).

Definition selectLongBreak (r : State) : Handler unit :=
  pauseTimer r;;
  setIsBreak true;;
  setIsLongBreak true;;
  setTimeLeft (longBreakDuration (settings r) * 60).

(** [onClick] of the Skip button. *)
Definition skipOnClick (r : State) : Handler unit :=
  pauseTimer r;;
  let wasBreak := isBreak r in
  if wasBreak then
    setIsLongBreak false;;
    setTimeLeft (workDuration (settings r) * 60);;
    setIsBreak false
  else
    let newSessionCount := sessionCount r + 1 in
    let isLongBreakNext :=
      Js.rem_is_zero newSessionCount (longBreakInterval (settings r)) in
    let breakDuration :=
      if isLongBreakNext then longBreakDuration (settings r)
      else shortBreakDuration (settings r) in
    setTimeLeft (breakDuration * 60);;
    setIsLongBreak isLongBreakNext;;
    setSessionCount newSessionCount;;
    setIsBreak true.

(** ** Renders and events *)

(** After a render the effect on [[isRunning]] copies it into
    [isRunningRef.current]. *)
Definition commit (w : World) : World :=
  {| hooks := hooks w; timerRef := timerRef w;
     isRunningRef := isRunning (hooks w);
     audioContextRef := audioContextRef w;
     intervals := intervals w; timers := timers w;
     localStorage := localStorage w; effects := effects w |}.

(** An event of the page reaches the handler of the current render. *)
Definition dispatch (h : State → Handler unit) (w : World) : World :=
  commit (h (hooks w) w).2.

(** Settings arriving, by either way. *)
Definition settingsFetched (response : option PomodoroSettings) : World → World :=
  dispatch (λ _, fetchSettings response).

Definition settingsChanged (detail : PomodoroSettings) : World → World :=
  dispatch (λ _, handleSettingsChange detail).

(** The countdown reaching its end: the callback of the interval that
    [startTimer] registered calls the [completeSession] of the render in
    which Start was pressed.  (How the [0] that the callback then returns
    to [setTimeLeft] combines with the [setTimeLeft] of
    [completeSession] is left to React and not modelled.) *)
Definition countdownEnds (now : Z) (iso : string) (w : World) : World :=
  match timerRef w ≫= (λ h, intervals w !! h) with
  | Some r => commit (completeSession now iso r w).2
  | None => w
  end.

(** The duration, in seconds, of the mode that [s] is in. *)
Definition modeDuration (p : PomodoroSettings) (s : State) : Z :=
  if isBreak s
  then (if isLongBreak s then longBreakDuration p else shortBreakDuration p) * 60
  else workDuration p * 60.

Definition defaultSettings : PomodoroSettings :=
  {| workDuration := 25; shortBreakDuration := 5;
     longBreakDuration := 15; longBreakInterval := 4 |}.

(** The page as first rendered, with its audio context created and
    [stored] in [localStorage]. *)
Definition initial (stored : gmap string Stored) : World :=
  {| hooks := {| timeLeft := 25 * 60; isRunning := false; isBreak := false;
                 isLongBreak := false; selectedTaskId := None; tasks := [];
                 history := []; sessionCount := 0;
                 settings := defaultSettings |};
     timerRef := None; isRunningRef := false; audioContextRef := true;
     intervals := ∅; timers := 0%nat; localStorage := stored; effects := [] |}.

(** The history load seen as an event of its own. *)
Definition historyLoaded : World → World := dispatch (λ _, loadHistory).

(** A session completing in the state [w] is in: [completeSession] of a
    render that agrees with [hooks w]. *)
Definition sessionCompletes (now : Z) (iso : string) : World → World :=
  dispatch (completeSession now iso).

(** [r] and [s] differ at most in [timeLeft] and [isRunning], the two
    variables that starting the timer and its ticks change. *)
Definition same_session (r s : State) : Prop :=
  isBreak r = isBreak s ∧ isLongBreak r = isLongBreak s
  ∧ selectedTaskId r = selectedTaskId s ∧ tasks r = tasks s
  ∧ history r = history s ∧ sessionCount r = sessionCount s
  ∧ settings r = settings s.

(** How one stored record comes out of the load. *)
Definition migrated (rec rec' : gmap string JsValue) : Prop :=
  (rec !! "type" = Some (JsString "break") →
     rec' !! "type" = Some (JsString "short_break")
     ∧ ∀ k, k ≠ "type" → rec' !! k = rec !! k)
  ∧ (rec !! "type" ≠ Some (JsString "break") → rec' = rec).

(** ** Sample states *)

(** A short break selected and not started. *)
Definition breakPaused : World := dispatch selectShortBreak (initial ∅).

Definition newSettings : PomodoroSettings :=
  {| workDuration := 30; shortBreakDuration := 10;
     longBreakDuration := 20; longBreakInterval := 4 |}.

(** Three focus sessions and their breaks skipped, then Start pressed on
    the fourth focus session. *)
Definition thirdDone : World := Nat.iter 6 (dispatch skipOnClick) (initial ∅).
Definition fourthRunning : World := dispatch toggleTimer thirdDone.

(** A stored history of two records, the first with the legacy tag. *)
Definition legacyRecord : gmap string JsValue :=
  <["id" := JsNumber 1700000000000]>
  (<["date" := JsString "2023-11-14T22:13:20.000Z"]>
  (<["type" := JsString "break"]>
  (<["duration" := JsNumber 5]>
  (<["taskTitle" := JsString "No task linked"]> ∅)))).

Definition focusRecord : gmap string JsValue :=
  <["id" := JsNumber 1699998500000]>
  (<["date" := JsString "2023-11-14T21:48:20.000Z"]>
  (<["type" := JsString "focus"]>
  (<["duration" := JsNumber 25]>
  (<["taskTitle" := JsString "No task linked"]> ∅)))).

Definition legacyStore : gmap string Stored :=
  {[ "pomodoroHistory" := JsonText (JsArray [JsObject legacyRecord; JsObject focusRecord]) ]}.

(** ** The events of the page *)

Inductive Event :=
| StartPauseClicked
| ResetClicked
| SkipClicked
| PomodoroTab
| ShortBreakTab
| LongBreakTab
| SettingsResponse (response : option PomodoroSettings)
| SettingsChangedEvent (detail : PomodoroSettings)
| TasksResponse (response : option (list Task))
| TaskChosen (value : string)
| CountdownEnded (now : Z) (iso : string).

Definition handle (e : Event) (w : World) : World :=
  match e with
  | StartPauseClicked => dispatch toggleTimer w
  | ResetClicked => dispatch resetTimer w
  | SkipClicked => dispatch skipOnClick w
  | PomodoroTab => dispatch selectPomodoro w
  | ShortBreakTab => dispatch selectShortBreak w
  | LongBreakTab => dispatch selectLongBreak w
  | SettingsResponse response => settingsFetched response w
  | SettingsChangedEvent detail => settingsChanged detail w
  | TasksResponse response => dispatch (λ _, fetchTasks response) w
  | TaskChosen value => dispatch (λ _, taskSelected value) w
  | CountdownEnded now iso => countdownEnds now iso w
  end.

Definition run (events : list Event) (w : World) : World :=
  foldl (λ w e, handle e w) w events.

(** The page once mounted over [stored]: the mount effect loads the
    history. *)
Definition mounted (stored : gmap string Stored) : World :=
  historyLoaded (initial stored).

(** The events that neither stop nor start the timer. *)
Definition quiet (e : Event) : bool :=
  match e with
  | SettingsResponse _ | SettingsChangedEvent _ | TasksResponse _ | TaskChosen _ => true
  | _ => false
  end.

(** The timer and its interval agree: while running there is exactly one
    interval, the one of [timerRef], and its callback belongs to a render of
    the session that is running; while stopped there is none.  Focus mode
    never carries the long-break flag. *)
Definition timer_ok (w : World) : Prop :=
  isRunningRef w = isRunning (hooks w)
  ∧ (if isRunning (hooks w)
     then ∃ h r, timerRef w = Some h ∧ intervals w = {[ h := r ]}
                 ∧ isBreak r = isBreak (hooks w)
                 ∧ isLongBreak r = isLongBreak (hooks w)
                 ∧ sessionCount r = sessionCount (hooks w)
                 ∧ history r = history (hooks w)
     else intervals w = ∅)
  ∧ (isBreak (hooks w) = false → isLongBreak (hooks w) = false).

(** A history element that the load gives back as it is: not [null], not a
    record with the legacy tag. *)
Definition settled (v : JsValue) : Prop :=
  ∀ w, migrate v w = (Js.Normal v, w).

(** The history in the state is settled and is the one a reload would
    give. *)
Definition history_kept (w : World) : Prop :=
  Forall settled (history (hooks w))
  ∧ history (hooks (mounted (localStorage w))) = history (hooks w).

(** ** What the page displays *)

Import Stdlib.Strings.Ascii.

(** [n.toString()] for an integer (below 10^21). *)
Definition toString (n : Z) : string := NilZero.string_of_int (Z.to_int n).

(** [s.padStart(targetLength, c)] for a one-character pad string. *)
Definition padStart (targetLength : nat) (c : Ascii.ascii) (s : string) : string :=
  String.app (String.string_of_list_ascii (repeat c (targetLength - String.length s))) s.

Definition formatTime (seconds : Z) : string :=
  let mins := seconds `div` 60 in
  let secs := Js.rem seconds 60 in
  String.app (padStart 2 "0"%char (toString mins))
    (String.app ":" (padStart 2 "0"%char (toString secs))).

(** The number in "Session ... of ...":
    [sessionCount % settings.longBreakInterval || settings.longBreakInterval],
    where both [0] and the NaN of a zero interval are falsy. *)
Definition sessionNumber (s : State) : Z :=
  let interval := longBreakInterval (settings s) in
  if interval =? 0 then interval
  else if Js.rem (sessionCount s) interval =? 0 then interval
       else Js.rem (sessionCount s) interval.

(** The decimal digit [d], and the colon. *)
Definition digit (d : Z) : ascii := ascii_of_nat (48 + Z.to_nat d).
Definition colon : ascii := ":"%char.

(** Two digits of minutes, the colon, two digits of seconds. *)
Definition mmss (seconds : Z) : string :=
  String (digit (seconds `div` 600))
    (String (digit ((seconds `div` 60) `mod` 10))
       (String colon
          (String (digit ((seconds `mod` 60) `div` 10))
             (String (digit ((seconds `mod` 60) `mod` 10)) "")))).

(** The events that stop the timer and go on within the state: Reset,
    Skip and the three tabs. *)
Definition stops (e : Event) : bool :=
  match e with
  | ResetClicked | SkipClicked | PomodoroTab | ShortBreakTab | LongBreakTab => true
  | _ => false
  end.

(** [w] with its history replaced. *)
Definition with_history (h : list JsValue) (w : World) : World :=
  (setHistory h w).2.

(** The intervals that are left once [pauseTimer] has cleared the one of
    [timerRef]. *)
Definition cleared_intervals (w : World) : gmap nat State :=
  match timerRef w with
  | Some h => delete h (intervals w)
  | None => intervals w
  end.

End Pomodoro.


(** Running past a step that completes normally. *)
Lemma handler_bind_normal {W A B} (m : Js.Handler W A) (f : A → Js.Handler W B)
    (w w' : W) (a : A) :
  m w = (Js.Normal a, w') → (m ≫= f) w = f a w'.
Proof. intros H. unfold mbind, handler_bind, Js.bind. rewrite H. reflexivity. Qed.

(** * Properties of the playback controller *)
Section Playback.
Import Music.

Implicit Types (w : World) (s : State) (l : list File).

Lemma length_nonempty l : l ≠ [] → 0 < Js.length l.
Proof. destruct l; [done | intros _; unfold Js.length; simpl; lia]. Qed.

Lemma length_empty l : Js.length l = 0 → l = [].
Proof. destruct l; [done | unfold Js.length; simpl; lia]. Qed.

Lemma index_in_range l i :
  0 ≤ i < Js.length l → is_Some (Js.index l i).
Proof.
  intros [Hlo Hhi]. unfold Js.index, Js.length in *.
  destruct (Z.leb_spec 0 i); [| lia].
  apply lookup_lt_is_Some. lia.
Qed.

(** [%] on the two index computations, for an index in range. *)
Lemma rem_succ i n :
  0 ≤ i < n → Js.rem (i + 1) n = if i + 1 =? n then 0 else i + 1.
Proof.
  intros H. unfold Js.rem. rewrite Z.rem_mod_nonneg by lia.
  destruct (Z.eqb_spec (i + 1) n) as [->|].
  - apply Z_mod_same_full.
  - apply Z.mod_small. lia.
Qed.

Lemma rem_pred i n :
  0 ≤ i < n → Js.rem (i - 1 + n) n = if i =? 0 then n - 1 else i - 1.
Proof.
  intros H. unfold Js.rem. rewrite Z.rem_mod_nonneg by lia.
  destruct (Z.eqb_spec i 0) as [->|].
  - replace (0 - 1 + n) with (n - 1) by lia. apply Z.mod_small. lia.
  - replace (i - 1 + n) with (i - 1 + 1 * n) by lia.
    rewrite Z_mod_plus_full. apply Z.mod_small. lia.
Qed.

(** What [nextSong] and [prevSong] leave in the state when the item at
    the new index exists. *)
Lemma nextSong_hooks w song :
  Js.length (playlist (hooks w)) ≠ 0 →
  Js.index (playlist (hooks w))
    (Js.rem (currentIndex (hooks w) + 1) (Js.length (playlist (hooks w)))) = Some song →
  hooks (dispatch nextSong w) =
    {| playlist := playlist (hooks w);
       currentIndex := Js.rem (currentIndex (hooks w) + 1) (Js.length (playlist (hooks w)));
       isPlaying := true;
       fileName := name song |}.
Proof.
  intros Hn Hsong. unfold dispatch, nextSong.
  destruct (Z.eqb_spec (Js.length (playlist (hooks w))) 0); [done |].
  rewrite Hsong. reflexivity.
Qed.

Lemma prevSong_hooks w song :
  Js.length (playlist (hooks w)) ≠ 0 →
  Js.index (playlist (hooks w))
    (Js.rem (currentIndex (hooks w) - 1 + Js.length (playlist (hooks w)))
            (Js.length (playlist (hooks w)))) = Some song →
  hooks (dispatch prevSong w) =
    {| playlist := playlist (hooks w);
       currentIndex := Js.rem (currentIndex (hooks w) - 1 + Js.length (playlist (hooks w)))
                              (Js.length (playlist (hooks w)));
       isPlaying := true;
       fileName := name song |}.
Proof.
  intros Hn Hsong. unfold dispatch, prevSong.
  destruct (Z.eqb_spec (Js.length (playlist (hooks w))) 0); [done |].
  rewrite Hsong. reflexivity.
Qed.

Lemma nextSong_empty w : playlist (hooks w) = [] → dispatch nextSong w = w.
Proof. intros H. unfold dispatch, nextSong. rewrite H. reflexivity. Qed.

Lemma prevSong_empty w : playlist (hooks w) = [] → dispatch prevSong w = w.
Proof. intros H. unfold dispatch, prevSong. rewrite H. reflexivity. Qed.

(** With the index in range, the new index is the mathematical
    [(i + 1) mod n], resp. [(i - 1 + n) mod n], and its item exists. *)
Lemma nextSong_in_range w :
  playlist (hooks w) ≠ [] →
  0 ≤ currentIndex (hooks w) < Js.length (playlist (hooks w)) →
  ∃ song,
    Js.index (playlist (hooks w))
      ((currentIndex (hooks w) + 1) `mod` Js.length (playlist (hooks w))) = Some song
    ∧ hooks (dispatch nextSong w) =
        {| playlist := playlist (hooks w);
           currentIndex :=
             (currentIndex (hooks w) + 1) `mod` Js.length (playlist (hooks w));
           isPlaying := true;
           fileName := name song |}.
Proof.
  intros Hne Hi.
  set (n := Js.length (playlist (hooks w))) in *.
  assert (Hrem : Js.rem (currentIndex (hooks w) + 1) n
                 = (currentIndex (hooks w) + 1) `mod` n)
    by (unfold Js.rem; apply Z.rem_mod_nonneg; lia).
  destruct (index_in_range (playlist (hooks w))
              ((currentIndex (hooks w) + 1) `mod` n)) as [song Hsong].
  { apply Z.mod_pos_bound. lia. }
  exists song. split; [exact Hsong |].
  rewrite <- Hrem in Hsong |- *.
  apply nextSong_hooks; [fold n; lia | exact Hsong].
Qed.

Lemma prevSong_in_range w :
  playlist (hooks w) ≠ [] →
  0 ≤ currentIndex (hooks w) < Js.length (playlist (hooks w)) →
  ∃ song,
    Js.index (playlist (hooks w))
      ((currentIndex (hooks w) - 1 + Js.length (playlist (hooks w)))
         `mod` Js.length (playlist (hooks w))) = Some song
    ∧ hooks (dispatch prevSong w) =
        {| playlist := playlist (hooks w);
           currentIndex :=
             (currentIndex (hooks w) - 1 + Js.length (playlist (hooks w)))
               `mod` Js.length (playlist (hooks w));
           isPlaying := true;
           fileName := name song |}.
Proof.
  intros Hne Hi.
  set (n := Js.length (playlist (hooks w))) in *.
  assert (Hrem : Js.rem (currentIndex (hooks w) - 1 + n) n
                 = (currentIndex (hooks w) - 1 + n) `mod` n)
    by (unfold Js.rem; apply Z.rem_mod_nonneg; lia).
  destruct (index_in_range (playlist (hooks w))
              ((currentIndex (hooks w) - 1 + n) `mod` n)) as [song Hsong].
  { apply Z.mod_pos_bound. lia. }
  exists song. split; [exact Hsong |].
  rewrite <- Hrem in Hsong |- *.
  apply prevSong_hooks; [fold n; lia | exact Hsong].
Qed.

(** The two branches of [onEnd] on a non-empty playlist. *)
Lemma onEnd_at_end w :
  playlist (hooks w) ≠ [] →
  Js.length (playlist (hooks w)) ≤ currentIndex (hooks w) + 1 →
  hooks (dispatch onEnd w) =
    {| playlist := playlist (hooks w); currentIndex := currentIndex (hooks w);
       isPlaying := false; fileName := fileName (hooks w) |}.
Proof.
  intros Hne Hlast. apply length_nonempty in Hne.
  unfold dispatch, onEnd.
  destruct (Z.ltb_spec 0 (Js.length (playlist (hooks w)))); [| lia].
  destruct (Z.ltb_spec (currentIndex (hooks w) + 1)
              (Js.length (playlist (hooks w)))); [lia |].
  reflexivity.
Qed.

Lemma onEnd_advance w :
  0 ≤ currentIndex (hooks w) →
  currentIndex (hooks w) + 1 < Js.length (playlist (hooks w)) →
  ∃ song,
    Js.index (playlist (hooks w)) (currentIndex (hooks w) + 1) = Some song
    ∧ hooks (dispatch onEnd w) =
        {| playlist := playlist (hooks w);
           currentIndex := currentIndex (hooks w) + 1;
           isPlaying := true;
           fileName := name song |}.
Proof.
  intros Hlo Hhi.
  destruct (index_in_range (playlist (hooks w)) (currentIndex (hooks w) + 1))
    as [song Hsong]; [lia |].
  exists song. split; [exact Hsong |].
  unfold dispatch, onEnd.
  destruct (Z.ltb_spec 0 (Js.length (playlist (hooks w)))); [| lia].
  destruct (Z.ltb_spec (currentIndex (hooks w) + 1)
              (Js.length (playlist (hooks w)))); [| lia].
  rewrite Hsong. reflexivity.
Qed.

(** [k] presses of Next from an index in range. *)
Lemma next_iter w (k : nat) :
  playlist (hooks w) ≠ [] →
  0 ≤ currentIndex (hooks w) < Js.length (playlist (hooks w)) →
  playlist (hooks (Nat.iter k (step OpNext) w)) = playlist (hooks w)
  ∧ currentIndex (hooks (Nat.iter k (step OpNext) w))
    = (currentIndex (hooks w) + Z.of_nat k) `mod` Js.length (playlist (hooks w)).
Proof.
  intros Hne Hi. induction k as [|k [IHp IHi]].
  - simpl. split; [done |]. rewrite Z.add_0_r, Z.mod_small; lia.
  - change (Nat.iter (S k) (step OpNext) w)
      with (dispatch nextSong (Nat.iter k (step OpNext) w)).
    set (w' := Nat.iter k (step OpNext) w) in *.
    destruct (nextSong_in_range w') as (song & _ & Hw').
    { rewrite IHp. exact Hne. }
    { rewrite IHp, IHi. apply Z.mod_pos_bound. lia. }
    rewrite Hw'. cbn [playlist currentIndex]. split; [exact IHp |].
    rewrite IHp, IHi, Zplus_mod_idemp_l. f_equal. lia.
Qed.

Lemma loadPlaylist_hooks first rest w :
  hooks (dispatch (loadPlaylist (first :: rest)) w) =
    {| playlist := first :: rest; currentIndex := 0; isPlaying := false;
       fileName := name first |}.
Proof. reflexivity. Qed.

Lemma playCurrent_hooks w :
  hooks (dispatch playCurrent w) = hooks w
  ∨ ∃ song,
      Js.index (playlist (hooks w)) (currentIndex (hooks w)) = Some song
      ∧ hooks (dispatch playCurrent w) =
          {| playlist := playlist (hooks w); currentIndex := currentIndex (hooks w);
             isPlaying := true; fileName := name song |}.
Proof.
  unfold dispatch, playCurrent. destruct w as [s [calls|] urls]; cbn;
    destruct (Js.index (playlist s) (currentIndex s)) as [song|]; cbn; eauto.
Qed.

Lemma stopMusic_hooks w :
  hooks (dispatch stopMusic w) = hooks w
  ∨ playlist (hooks (dispatch stopMusic w)) = [].
Proof.
  unfold dispatch, stopMusic. destruct w as [s [calls|] urls]; cbn; auto.
Qed.

Lemma onEnd_empty w : playlist (hooks w) = [] → dispatch onEnd w = w.
Proof. intros H. unfold dispatch, onEnd. rewrite H. reflexivity. Qed.

(** Closes [lo ≤ i < hi] between numerals. *)
Ltac in_range := vm_compute; split; [discriminate | reflexivity].

(** ** The claims *)

(** C3 (as stated, refuted): with nothing loaded, [resume()] is not a
    no-op: on the provider as first mounted it turns [isPlaying] on. *)
Lemma C3_resume_not_noop :
  playlist (hooks initial) = []
  ∧ fileName (hooks initial) = ""
  ∧ hooks (step OpResume initial) ≠ hooks initial.
Proof. repeat split. discriminate. Qed.

(** C3 (amended): [pause()] and [resume()] have no guard of their own.
    Whatever is loaded, [pause()] sets [isPlaying] to false and
    [resume()] sets it to true; both leave the playlist, the index and the
    display name alone, and call [pause()], resp. [play()], on the audio
    element when it exists. *)
Theorem C3_pause_resume_unguarded w :
  hooks (step OpPause w) =
    {| playlist := playlist (hooks w); currentIndex := currentIndex (hooks w);
       isPlaying := false; fileName := fileName (hooks w) |}
  ∧ audioRef (step OpPause w) = (λ calls, calls ++ [Pause]) <$> audioRef w
  ∧ hooks (step OpResume w) =
    {| playlist := playlist (hooks w); currentIndex := currentIndex (hooks w);
       isPlaying := true; fileName := fileName (hooks w) |}
  ∧ audioRef (step OpResume w) = (λ calls, calls ++ [Play]) <$> audioRef w.
Proof. repeat split. Qed.

(** C5: at the last index of a non-empty playlist the "ended" event turns
    [isPlaying] off and keeps [currentIndex], [next()] wraps
    [currentIndex] to 0 and turns [isPlaying] on; the two resulting
    states differ. *)
Theorem C5_ended_stops_next_wraps w :
  playlist (hooks w) ≠ [] →
  currentIndex (hooks w) = Js.length (playlist (hooks w)) - 1 →
  is_Some (audioRef w) →
  (isPlaying (hooks (step OpAutoAdvance w)) = false
   ∧ currentIndex (hooks (step OpAutoAdvance w)) = currentIndex (hooks w))
  ∧ (currentIndex (hooks (step OpNext w)) = 0
     ∧ isPlaying (hooks (step OpNext w)) = true)
  ∧ hooks (step OpAutoAdvance w) ≠ hooks (step OpNext w).
Proof.
  intros Hne Hlast [calls Hcalls].
  pose proof (length_nonempty _ Hne) as Hpos.
  assert (Hend : hooks (step OpAutoAdvance w) =
                 {| playlist := playlist (hooks w);
                    currentIndex := currentIndex (hooks w);
                    isPlaying := false; fileName := fileName (hooks w) |}).
  { cbn [step]. unfold ended. rewrite Hcalls. apply onEnd_at_end; [done | lia]. }
  destruct (nextSong_in_range w) as (song & _ & Hnext); [done | lia |].
  cbn [step]. cbn [step] in Hend. rewrite Hend, Hnext. cbn [isPlaying currentIndex].
  replace (currentIndex (hooks w) + 1) with (Js.length (playlist (hooks w))) by lia.
  rewrite Z_mod_same_full.
  repeat split. congruence.
Qed.

Lemma C5_ended_stops_next_wraps_witness :
  currentIndex (hooks lastPlaying) = 2
  ∧ isPlaying (hooks (step OpAutoAdvance lastPlaying)) = false
  ∧ currentIndex (hooks (step OpAutoAdvance lastPlaying)) = 2
  ∧ currentIndex (hooks (step OpNext lastPlaying)) = 0
  ∧ isPlaying (hooks (step OpNext lastPlaying)) = true.
Proof.
  destruct (C5_ended_stops_next_wraps lastPlaying) as ((H1 & H2) & (H3 & H4) & _).
  - discriminate.
  - reflexivity.
  - eexists. reflexivity.
  - split; [reflexivity |]. split; [exact H1 |].
    split; [rewrite H2; reflexivity |]. split; [exact H3 | exact H4].
Defined.

Lemma mod_succ_pred i n :
  0 ≤ i < n → ((i + 1) `mod` n - 1 + n) `mod` n = i.
Proof.
  intros H. replace ((i + 1) `mod` n - 1 + n) with ((i + 1) `mod` n + (n - 1)) by lia.
  rewrite Zplus_mod_idemp_l. replace (i + 1 + (n - 1)) with (i + 1 * n) by lia.
  rewrite Z_mod_plus_full. apply Z.mod_small. lia.
Qed.

Lemma mod_pred_succ i n :
  0 ≤ i < n → ((i - 1 + n) `mod` n + 1) `mod` n = i.
Proof.
  intros H. rewrite Zplus_mod_idemp_l.
  replace (i - 1 + n + 1) with (i + 1 * n) by lia.
  rewrite Z_mod_plus_full. apply Z.mod_small. lia.
Qed.

(** C6 (as stated, refuted): after the three tracks were picked (nothing
    playing yet), [next()] then [previous()] does not give the state
    back, and neither does [previous()] then [next()]. *)
Lemma C6_previous_next_not_identity :
  hooks (step OpPrevious (step OpNext picked)) ≠ hooks picked
  ∧ hooks (step OpNext (step OpPrevious picked)) ≠ hooks picked.
Proof. split; discriminate. Qed.

(** C6 (amended): from a state whose index is valid and whose display
    name is that of the current item, [previous()] after [next()], and
    [next()] after [previous()], restore the playlist, [currentIndex] and
    the display name, and leave [isPlaying] true when the playlist is
    non-empty; so they give the state back exactly when it was playing
    or its playlist is empty. *)
Theorem C6_previous_next_roundtrip w :
  valid_index (hooks w) →
  named (hooks w) →
  let back :=
    {| playlist := playlist (hooks w); currentIndex := currentIndex (hooks w);
       isPlaying := if playlist (hooks w) is [] then isPlaying (hooks w) else true;
       fileName := fileName (hooks w) |} in
  hooks (step OpPrevious (step OpNext w)) = back
  ∧ hooks (step OpNext (step OpPrevious w)) = back
  ∧ (isPlaying (hooks w) = true → back = hooks w).
Proof.
  intros Hvalid Hnamed back. cbn [step].
  destruct (decide (playlist (hooks w) = [])) as [Hnil | Hne].
  - rewrite (nextSong_empty w Hnil), (prevSong_empty w Hnil), (nextSong_empty w Hnil).
    subst back. rewrite Hnil. destruct (hooks w); cbn in *. subst. done.
  - specialize (Hvalid Hne).
    set (n := Js.length (playlist (hooks w))) in *.
    split; [| split].
    + destruct (nextSong_in_range w Hne Hvalid) as (s1 & _ & Hw1). fold n in Hw1.
      pose proof (prevSong_in_range (dispatch nextSong w)) as Hp.
      rewrite Hw1 in Hp. cbn [playlist currentIndex] in Hp. fold n in Hp.
      destruct Hp as (s2 & Hs2 & Hw2); [done | apply Z.mod_pos_bound; lia |].
      rewrite mod_succ_pred in Hs2, Hw2 by exact Hvalid.
      rewrite Hw2, <- (Hnamed s2 Hs2). subst back.
      destruct (playlist (hooks w)); done.
    + destruct (prevSong_in_range w Hne Hvalid) as (s1 & _ & Hw1). fold n in Hw1.
      pose proof (nextSong_in_range (dispatch prevSong w)) as Hp.
      rewrite Hw1 in Hp. cbn [playlist currentIndex] in Hp. fold n in Hp.
      destruct Hp as (s2 & Hs2 & Hw2); [done | apply Z.mod_pos_bound; lia |].
      rewrite mod_pred_succ in Hs2, Hw2 by exact Hvalid.
      rewrite Hw2, <- (Hnamed s2 Hs2). subst back.
      destruct (playlist (hooks w)); done.
    + intros Hplaying. subst back. rewrite Hplaying.
      destruct (hooks w) as [pl ci ip fn]; cbn in *. subst ip.
      destruct pl; done.
Qed.

Lemma C6_previous_next_roundtrip_witness :
  hooks (step OpPrevious (step OpNext lastPlaying)) = hooks lastPlaying
  ∧ hooks (step OpNext (step OpPrevious lastPlaying)) = hooks lastPlaying.
Proof.
  destruct (C6_previous_next_roundtrip lastPlaying) as (H1 & H2 & H3).
  - intros _. in_range.
  - intros song Hsong. cbv in Hsong. injection Hsong as <-. reflexivity.
  - rewrite <- (H3 eq_refl). split; [exact H1 | exact H2].
Defined.

(** C7: on a non-empty playlist of length [n], from a valid index,
    [next()] applied [n] times brings [currentIndex] back to where it
    started. *)
Theorem C7_next_cycle w :
  playlist (hooks w) ≠ [] →
  0 ≤ currentIndex (hooks w) < Js.length (playlist (hooks w)) →
  currentIndex (hooks (Nat.iter (List.length (playlist (hooks w))) (step OpNext) w))
  = currentIndex (hooks w).
Proof.
  intros Hne Hi.
  destruct (next_iter w (List.length (playlist (hooks w))) Hne Hi) as [_ ->].
  fold (Js.length (playlist (hooks w))).
  replace (currentIndex (hooks w) + Js.length (playlist (hooks w)))
    with (currentIndex (hooks w) + 1 * Js.length (playlist (hooks w))) by lia.
  rewrite Z_mod_plus_full. apply Z.mod_small. exact Hi.
Qed.

Lemma C7_next_cycle_witness :
  currentIndex (hooks lastPlaying) = 2
  ∧ currentIndex (hooks (Nat.iter 3 (step OpNext) lastPlaying)) = 2.
Proof.
  split; [reflexivity |].
  apply (C7_next_cycle lastPlaying).
  - discriminate.
  - in_range.
Defined.

(** C8: every operation of the controller keeps [currentIndex] a valid
    index into a non-empty playlist, and on a non-empty playlist
    [next()] and [previous()] move it to [(i + 1) mod n] and
    [(i - 1 + n) mod n]. *)
Theorem C8_valid_index_preserved (op : Op) w :
  valid_index (hooks w) →
  valid_index (hooks (step op w))
  ∧ (playlist (hooks w) ≠ [] →
     currentIndex (hooks (step OpNext w))
     = (currentIndex (hooks w) + 1) `mod` Js.length (playlist (hooks w))
     ∧ currentIndex (hooks (step OpPrevious w))
       = (currentIndex (hooks w) - 1 + Js.length (playlist (hooks w)))
           `mod` Js.length (playlist (hooks w))).
Proof.
  intros Hvalid. split.
  - destruct op as [files| | | | | | |]; cbn [step].
    + destruct files as [|first rest]; [exact Hvalid |].
      rewrite loadPlaylist_hooks. intros _. unfold Js.length. cbn. lia.
    + destruct (playCurrent_hooks w) as [-> | (song & _ & ->)]; exact Hvalid.
    + exact Hvalid.
    + exact Hvalid.
    + destruct (stopMusic_hooks w) as [-> | Hnil]; [exact Hvalid |].
      intros Hne. done.
    + destruct (decide (playlist (hooks w) = [])) as [Hnil | Hne].
      * rewrite (nextSong_empty w Hnil). exact Hvalid.
      * destruct (nextSong_in_range w Hne (Hvalid Hne)) as (song & _ & ->).
        intros _. cbn [playlist currentIndex].
        apply Z.mod_pos_bound, length_nonempty, Hne.
    + destruct (decide (playlist (hooks w) = [])) as [Hnil | Hne].
      * rewrite (prevSong_empty w Hnil). exact Hvalid.
      * destruct (prevSong_in_range w Hne (Hvalid Hne)) as (song & _ & ->).
        intros _. cbn [playlist currentIndex].
        apply Z.mod_pos_bound, length_nonempty, Hne.
    + unfold ended. destruct (audioRef w); [| exact Hvalid].
      destruct (decide (playlist (hooks w) = [])) as [Hnil | Hne].
      * rewrite (onEnd_empty w Hnil). exact Hvalid.
      * specialize (Hvalid Hne).
        destruct (Z.lt_ge_cases (currentIndex (hooks w) + 1)
                    (Js.length (playlist (hooks w)))) as [Hlt | Hge].
        -- destruct (onEnd_advance w) as (song & _ & ->); [lia | lia |].
           intros _. cbn [playlist currentIndex]. lia.
        -- rewrite (onEnd_at_end w Hne Hge). intros _. exact Hvalid.
  - intros Hne. specialize (Hvalid Hne). cbn [step].
    destruct (nextSong_in_range w Hne Hvalid) as (s1 & _ & ->).
    destruct (prevSong_in_range w Hne Hvalid) as (s2 & _ & ->).
    split; reflexivity.
Qed.

Lemma C8_valid_index_preserved_witness :
  valid_index (hooks (step OpAutoAdvance lastPlaying))
  ∧ currentIndex (hooks (step OpNext lastPlaying)) = 0
  ∧ currentIndex (hooks (step OpPrevious lastPlaying)) = 1.
Proof.
  destruct (C8_valid_index_preserved OpAutoAdvance lastPlaying) as [H1 H2].
  - intros _. in_range.
  - split; [exact H1 |]. apply H2. discriminate.
Defined.

(** The display name stays that of the current item, so the states that
    the round trip of C6 speaks of are those the controller reaches. *)
Lemma named_preserved (op : Op) w :
  valid_index (hooks w) → named (hooks w) → named (hooks (step op w)).
Proof.
  intros Hvalid Hnamed.
  destruct op as [files| | | | | | |]; cbn [step].
  - destruct files as [|first rest]; [exact Hnamed |].
    rewrite loadPlaylist_hooks. intros song Hsong. cbv in Hsong. injection Hsong as <-. reflexivity.
  - destruct (playCurrent_hooks w) as [-> | (s1 & Hs1 & ->)]; [exact Hnamed |].
    intros song Hsong. cbn [playlist currentIndex fileName] in *. congruence.
  - exact Hnamed.
  - exact Hnamed.
  - unfold dispatch, stopMusic. destruct w as [s [calls|] urls]; cbn; [| exact Hnamed].
    intros song Hsong. cbv in Hsong. discriminate.
  - destruct (decide (playlist (hooks w) = [])) as [Hnil | Hne].
    + rewrite (nextSong_empty w Hnil). exact Hnamed.
    + destruct (nextSong_in_range w Hne (Hvalid Hne)) as (s1 & Hs1 & ->).
      intros song Hsong. cbn [playlist currentIndex fileName] in *. congruence.
  - destruct (decide (playlist (hooks w) = [])) as [Hnil | Hne].
    + rewrite (prevSong_empty w Hnil). exact Hnamed.
    + destruct (prevSong_in_range w Hne (Hvalid Hne)) as (s1 & Hs1 & ->).
      intros song Hsong. cbn [playlist currentIndex fileName] in *. congruence.
  - unfold ended. destruct (audioRef w); [| exact Hnamed].
    destruct (decide (playlist (hooks w) = [])) as [Hnil | Hne].
    + rewrite (onEnd_empty w Hnil). exact Hnamed.
    + specialize (Hvalid Hne).
      destruct (Z.lt_ge_cases (currentIndex (hooks w) + 1)
                  (Js.length (playlist (hooks w)))) as [Hlt | Hge].
      * destruct (onEnd_advance w) as (s1 & Hs1 & ->); [lia | lia |].
        intros song Hsong. cbn [playlist currentIndex fileName] in *. congruence.
      * rewrite (onEnd_at_end w Hne Hge). exact Hnamed.
Qed.

End Playback.

(** * Properties of the Pomodoro page *)
Section Timer.
Import Pomodoro.

Implicit Types (w : World) (r s : State) (p : PomodoroSettings).

(** [a % n === 0] is divisibility, like [a mod n = 0], for [n ≠ 0]. *)
Lemma rem_is_zero_mod a n :
  n ≠ 0 → Js.rem_is_zero a n = true ↔ a `mod` n = 0.
Proof.
  intros Hn. unfold Js.rem_is_zero.
  destruct (Z.eqb_spec n 0); [done |].
  rewrite Z.eqb_eq, Z.rem_divide, Z.mod_divide by done. done.
Qed.

(** ** Settings updates *)

(** What a settings update leaves in a state that is not running, and in
    one that is. *)
Lemma handleSettingsChange_paused detail w :
  isRunningRef w = false →
  hooks (settingsChanged detail w) =
    {| timeLeft := workDuration detail * 60; isRunning := isRunning (hooks w);
       isBreak := isBreak (hooks w); isLongBreak := isLongBreak (hooks w);
       selectedTaskId := selectedTaskId (hooks w); tasks := tasks (hooks w);
       history := history (hooks w); sessionCount := sessionCount (hooks w);
       settings := detail |}.
Proof.
  intros H. unfold settingsChanged, dispatch, handleSettingsChange.
  destruct w; cbn in *. subst. reflexivity.
Qed.

Lemma handleSettingsChange_running detail w :
  isRunningRef w = true →
  hooks (settingsChanged detail w) =
    {| timeLeft := timeLeft (hooks w); isRunning := isRunning (hooks w);
       isBreak := isBreak (hooks w); isLongBreak := isLongBreak (hooks w);
       selectedTaskId := selectedTaskId (hooks w); tasks := tasks (hooks w);
       history := history (hooks w); sessionCount := sessionCount (hooks w);
       settings := detail |}.
Proof.
  intros H. unfold settingsChanged, dispatch, handleSettingsChange.
  destruct w; cbn in *. subst. reflexivity.
Qed.

Lemma fetchSettings_as_change pomodoroSettings w :
  settingsFetched (Some pomodoroSettings) w = settingsChanged pomodoroSettings w.
Proof. reflexivity. Qed.

Lemma fetchSettings_failed w : hooks (settingsFetched None w) = hooks w.
Proof. reflexivity. Qed.

(** In focus mode the update does load the duration of the current mode. *)
Lemma settings_update_focus detail w :
  isRunningRef w = false → isBreak (hooks w) = false →
  timeLeft (hooks (settingsChanged detail w))
  = modeDuration detail (hooks (settingsChanged detail w)).
Proof.
  intros Hr Hb. rewrite handleSettingsChange_paused by done.
  unfold modeDuration. cbn. rewrite Hb. reflexivity.
Qed.

(** In a break it loads the work duration all the same. *)
Lemma settings_update_break detail w :
  isRunningRef w = false → isBreak (hooks w) = true →
  timeLeft (hooks (settingsChanged detail w)) = workDuration detail * 60
  ∧ modeDuration detail (hooks (settingsChanged detail w))
    = (if isLongBreak (hooks w) then longBreakDuration detail
       else shortBreakDuration detail) * 60.
Proof.
  intros Hr Hb. rewrite handleSettingsChange_paused by done.
  unfold modeDuration. cbn. rewrite Hb. done.
Qed.

(** Reset, next to it, goes by the mode. *)
Lemma resetTimer_mode w :
  timeLeft (hooks (dispatch resetTimer w)) = modeDuration (settings (hooks w)) (hooks w)
  ∧ isRunning (hooks (dispatch resetTimer w)) = false.
Proof.
  unfold dispatch, resetTimer, pauseTimer, modeDuration.
  destruct w as [s [h|] ? ? ? ? ? ?]; cbn; done.
Qed.

(** C1 (the code departs from it): a short break is selected and the
    timer is not running; new settings of 30/10/20 minutes arrive, by the
    event or by the fetch.  The settings are replaced, but [timeLeft]
    becomes the 1800 seconds of the work duration, not the 600 seconds
    of the short break that the state is in. *)
Theorem C1_settings_update_in_break :
  isRunning (hooks breakPaused) = false
  ∧ isBreak (hooks breakPaused) = true
  ∧ isLongBreak (hooks breakPaused) = false
  ∧ settings (hooks (settingsChanged newSettings breakPaused)) = newSettings
  ∧ timeLeft (hooks (settingsChanged newSettings breakPaused)) = 1800
  ∧ timeLeft (hooks (settingsFetched (Some newSettings) breakPaused)) = 1800
  ∧ modeDuration newSettings (hooks (settingsChanged newSettings breakPaused)) = 600.
Proof. repeat split. Qed.

(** ** Completing and skipping a session *)

(** The state that [completeSession] of render [r] leaves: what it reads
    comes from [r], what it does not set stays as in [w]. *)
Lemma completeSession_hooks now iso r w :
  ∃ entry,
    hooks (completeSession now iso r w).2 =
      {| timeLeft :=
           if isBreak r then workDuration (settings r) * 60
           else (if isLongBreak r then longBreakDuration (settings r)
                 else shortBreakDuration (settings r)) * 60;
         isRunning := false;
         isBreak := negb (isBreak r);
         isLongBreak :=
           if isBreak r then false
           else if Js.rem_is_zero (sessionCount r + 1) (longBreakInterval (settings r))
                then true else isLongBreak (hooks w);
         selectedTaskId := selectedTaskId (hooks w);
         tasks := tasks (hooks w);
         history := entry :: history r;
         sessionCount := if isBreak r then sessionCount (hooks w) else sessionCount r + 1;
         settings := settings (hooks w) |}.
Proof.
  unfold completeSession, switchSession, pauseTimer, playNotificationSound.
  destruct w as [s [h|] ? [|] ? ? ? ?]; cbn;
    destruct (isBreak r); cbn;
    try (destruct (Js.rem_is_zero (sessionCount r + 1)
                     (longBreakInterval (settings r))); cbn);
    eexists; reflexivity.
Qed.

(** [completeSession] reads neither [timeLeft] nor [isRunning]: the
    callback of an interval registered at Start does what the handler of
    the current render would do, as long as the session is the same. *)
Lemma completeSession_same_session now iso r s w :
  same_session r s →
  completeSession now iso r w = completeSession now iso s w.
Proof.
  intros (Hb & Hl & Ht & Hts & Hh & Hc & Hp).
  unfold completeSession, switchSession, pauseTimer.
  rewrite Hb, Hl, Ht, Hts, Hh, Hc, Hp. reflexivity.
Qed.

Lemma countdownEnds_same_session now iso r w :
  timerRef w ≫= (λ h, intervals w !! h) = Some r →
  same_session r (hooks w) →
  countdownEnds now iso w = sessionCompletes now iso w.
Proof.
  intros Hr Hsame. unfold countdownEnds, sessionCompletes, dispatch.
  rewrite Hr, (completeSession_same_session _ _ _ _ _ Hsame). reflexivity.
Qed.

(** A focus session always ends in a break with the short duration
    loaded, whatever the count. *)
Lemma completeSession_focus_short now iso w :
  isBreak (hooks w) = false → isLongBreak (hooks w) = false →
  timeLeft (hooks (sessionCompletes now iso w))
  = shortBreakDuration (settings (hooks w)) * 60.
Proof.
  intros Hb Hl. unfold sessionCompletes, dispatch.
  destruct (completeSession_hooks now iso (hooks w) w) as [entry He].
  cbn [hooks commit]. rewrite He. cbn [timeLeft]. rewrite Hb, Hl. reflexivity.
Qed.

(** C2 (the code departs from it): three focus sessions are behind, the
    fourth is running with the default settings (25/5/15 minutes, long
    break every 4) and its countdown ends.  The page goes to a break,
    marks it long and does not start it, but loads 300 seconds, the short
    break, where the long break has 900. *)
Theorem C2_fourth_focus_loads_short_break :
  let w' := countdownEnds 1700000000000 "2023-11-14T22:13:20.000Z" fourthRunning in
  (sessionCount (hooks fourthRunning) = 3
   ∧ isBreak (hooks fourthRunning) = false
   ∧ isRunning (hooks fourthRunning) = true
   ∧ settings (hooks fourthRunning) = defaultSettings)
  ∧ sessionCount (hooks w') = 4
  ∧ isBreak (hooks w') = true
  ∧ isLongBreak (hooks w') = true
  ∧ isRunning (hooks w') = false
  ∧ timeLeft (hooks w') = 300
  ∧ longBreakDuration (settings (hooks w')) * 60 = 900.
Proof. vm_compute. repeat split. Qed.

(** The state that Skip leaves from a focus session. *)
Lemma skip_focus_hooks w :
  isBreak (hooks w) = false →
  hooks (dispatch skipOnClick w) =
    let s := hooks w in
    let isLongBreakNext :=
      Js.rem_is_zero (sessionCount s + 1) (longBreakInterval (settings s)) in
    {| timeLeft := (if isLongBreakNext then longBreakDuration (settings s)
                    else shortBreakDuration (settings s)) * 60;
       isRunning := false;
       isBreak := true;
       isLongBreak := isLongBreakNext;
       selectedTaskId := selectedTaskId s; tasks := tasks s;
       history := history s;
       sessionCount := sessionCount s + 1;
       settings := settings s |}.
Proof.
  intros Hb. unfold dispatch, skipOnClick, pauseTimer. rewrite Hb.
  destruct w as [s [h|] ? ? ? ? ? ?]; reflexivity.
Qed.

(** Skip touches the outside only by clearing the interval of the ref. *)
Lemma skip_world w :
  effects (dispatch skipOnClick w) = effects w
  ∧ localStorage (dispatch skipOnClick w) = localStorage w
  ∧ intervals (dispatch skipOnClick w)
    = match timerRef w with
      | Some h => delete h (intervals w)
      | None => intervals w
      end.
Proof.
  unfold dispatch, skipOnClick, pauseTimer.
  destruct w as [s [h|] ? ? ? ? ? ?]; cbn; destruct (isBreak s); done.
Qed.

(** C4: Skip in a running focus session stops the timer (state and
    interval), leaves the history as it is and plays no tone (it has no
    effect on the outside at all); the break it goes to is long with the
    long-break duration loaded exactly when
    [(sessionCount + 1) mod longBreakInterval = 0], the flag being the
    one natural completion sets, and is short with the short-break
    duration loaded otherwise. *)
Theorem C4_skip_running_focus now iso w :
  isRunning (hooks w) = true →
  isBreak (hooks w) = false →
  longBreakInterval (settings (hooks w)) ≠ 0 →
  let w' := dispatch skipOnClick w in
  let long := (sessionCount (hooks w) + 1) `mod` longBreakInterval (settings (hooks w)) = 0 in
  (isRunning (hooks w') = false
   ∧ ∀ h, timerRef w = Some h → intervals w' !! h = None)
  ∧ history (hooks w') = history (hooks w)
  ∧ effects w' = effects w
  ∧ isBreak (hooks w') = true
  ∧ ((isLongBreak (hooks w') = true
      ∧ timeLeft (hooks w') = longBreakDuration (settings (hooks w)) * 60) ↔ long)
  ∧ (¬ long →
     isLongBreak (hooks w') = false
     ∧ timeLeft (hooks w') = shortBreakDuration (settings (hooks w)) * 60)
  ∧ (isLongBreak (hooks w) = false →
     isLongBreak (hooks w') = isLongBreak (hooks (sessionCompletes now iso w))).
Proof.
  intros Hrun Hb Hn w' long.
  destruct (skip_world w) as (Heff & _ & Hint).
  pose proof (skip_focus_hooks w Hb) as Hw'. fold w' in Hw', Heff, Hint.
  cbn zeta in Hw'.
  pose proof (rem_is_zero_mod (sessionCount (hooks w) + 1) _ Hn) as Hmod.
  fold long in Hmod.
  rewrite Hw'. cbn [isRunning history isBreak isLongBreak timeLeft].
  split; [split; [done |] |].
  { intros h Hh. rewrite Hint, Hh. apply lookup_delete_eq. }
  split; [done |]. split; [done |]. split; [done |].
  destruct (Js.rem_is_zero (sessionCount (hooks w) + 1)
              (longBreakInterval (settings (hooks w)))) eqn:Hz.
  - assert long by (apply Hmod; done).
    split; [done |]. split; [done |].
    intros Hl. unfold sessionCompletes, dispatch.
    destruct (completeSession_hooks now iso (hooks w) w) as [entry He].
    cbn [hooks commit]. rewrite He. cbn [isLongBreak]. rewrite Hb, Hz. done.
  - assert (¬ long) by (intros H; apply Hmod in H; done).
    split; [split; [intros [? _]; done | done] |]. split; [done |].
    intros Hl. unfold sessionCompletes, dispatch.
    destruct (completeSession_hooks now iso (hooks w) w) as [entry He].
    cbn [hooks commit]. rewrite He. cbn [isLongBreak]. rewrite Hb, Hz, Hl. done.
Qed.

Lemma C4_skip_running_focus_witness :
  let w' := dispatch skipOnClick fourthRunning in
  isRunning (hooks w') = false
  ∧ history (hooks w') = history (hooks fourthRunning)
  ∧ effects w' = effects fourthRunning
  ∧ isLongBreak (hooks w') = true
  ∧ timeLeft (hooks w') = 900.
Proof.
  intros w'.
  destruct (C4_skip_running_focus 0 "" fourthRunning)
    as ((H1 & _) & H2 & H3 & _ & H4 & _); [reflexivity | reflexivity | discriminate |].
  destruct H4 as [_ H4]. destruct H4 as [H4 H5]; [reflexivity |].
  repeat split; assumption.
Defined.

(** C10: skipping a focus session adds exactly one to [sessionCount], as
    completing it does, and writes no history record, where completing
    it prepends one. *)
Theorem C10_skip_counts_session now iso w :
  isRunning (hooks w) = true →
  isBreak (hooks w) = false →
  sessionCount (hooks (dispatch skipOnClick w)) = sessionCount (hooks w) + 1
  ∧ sessionCount (hooks (sessionCompletes now iso w)) = sessionCount (hooks w) + 1
  ∧ history (hooks (dispatch skipOnClick w)) = history (hooks w)
  ∧ ∃ entry, history (hooks (sessionCompletes now iso w)) = entry :: history (hooks w).
Proof.
  intros _ Hb. rewrite (skip_focus_hooks w Hb). cbn.
  unfold sessionCompletes, dispatch.
  destruct (completeSession_hooks now iso (hooks w) w) as [entry He].
  cbn [hooks commit]. rewrite He. cbn [sessionCount history]. rewrite Hb.
  eauto.
Qed.

Lemma C10_skip_counts_session_witness :
  sessionCount (hooks fourthRunning) = 3
  ∧ sessionCount (hooks (dispatch skipOnClick fourthRunning)) = 4
  ∧ sessionCount (hooks (sessionCompletes 0 "" fourthRunning)) = 4.
Proof.
  destruct (C10_skip_counts_session 0 "" fourthRunning) as (H1 & H2 & _);
    [reflexivity | reflexivity |].
  split; [reflexivity |]. split; [exact H1 | exact H2].
Defined.

(** ** The history load *)

Lemma migrate_record (rec : gmap string JsValue) w :
  ∃ rec', migrate (JsObject rec) w = (Js.Normal (JsObject rec'), w) ∧ migrated rec rec'.
Proof.
  unfold migrate, migrated.
  destruct (rec !! "type") as [[| | |t| |]|] eqn:Ht;
    try (exists rec; split; [reflexivity | split; [discriminate | reflexivity]]).
  destruct (String.eqb_spec t "break") as [-> | Hne].
  - eexists. split; [reflexivity |]. split; [| done].
    intros _. split; [apply lookup_insert_eq |].
    intros k Hk. apply lookup_insert_ne. done.
  - exists rec. split; [reflexivity |]. split; [| done].
    intros [= ->]. done.
Qed.

Lemma mapM_migrate_records (recs : list (gmap string JsValue)) w :
  ∃ loaded,
    mapM migrate (JsObject <$> recs) w = (Js.Normal (JsObject <$> loaded), w)
    ∧ Forall2 migrated recs loaded.
Proof.
  induction recs as [|rec recs (loaded & Hrun & Hall)].
  - exists []. split; [reflexivity | constructor].
  - destruct (migrate_record rec w) as (rec' & Hrec & Hm).
    exists (rec' :: loaded). split; [| constructor; done].
    change (mapM migrate (JsObject <$> rec :: recs))
      with (y ← migrate (JsObject rec);
            k ← mapM migrate (JsObject <$> recs);
            (mret (y :: k) : Handler (list JsValue))).
    rewrite (handler_bind_normal _ _ _ _ _ Hrec).
    rewrite (handler_bind_normal _ _ _ _ _ Hrun). reflexivity.
Qed.

(** C9: loading a stored list of records gives the records in the same
    order, a record whose [type] is ["break"] with [type] ["short_break"]
    and all its other fields as stored, any other record as stored. *)
Theorem C9_history_migration (recs : list (gmap string JsValue)) w :
  localStorage w !! "pomodoroHistory" = Some (JsonText (JsArray (JsObject <$> recs))) →
  ∃ loaded,
    history (hooks (historyLoaded w)) = JsObject <$> loaded
    ∧ Forall2 migrated recs loaded.
Proof.
  intros Hstored.
  destruct (mapM_migrate_records recs w) as (loaded & Hrun & Hall).
  exists loaded. split; [| exact Hall].
  unfold historyLoaded, dispatch, loadHistory.
  rewrite (handler_bind_normal _ _ w w (localStorage w !! "pomodoroHistory"))
    by reflexivity.
  rewrite Hstored. unfold Js.try_catch.
  rewrite (handler_bind_normal _ _ w w (JsArray (JsObject <$> recs))) by reflexivity.
  rewrite (handler_bind_normal _ _ _ _ _ Hrun). reflexivity.
Qed.

Lemma C9_history_migration_witness :
  ∃ loaded,
    history (hooks (historyLoaded (initial legacyStore))) = JsObject <$> loaded
    ∧ Forall2 migrated [legacyRecord; focusRecord] loaded.
Proof.
  apply (C9_history_migration [legacyRecord; focusRecord] (initial legacyStore)).
  reflexivity.
Defined.

(** The other outcomes of the load: nothing stored or text that does not
    parse leaves the history as it is, a value that is not an array empties
    it, and a [null] among the elements makes the mapping throw, which the
    [catch] swallows before anything is set. *)
Lemma loadHistory_nothing_stored w :
  localStorage w !! "pomodoroHistory" = None →
  hooks (historyLoaded w) = hooks w.
Proof.
  intros Hstored. unfold historyLoaded, dispatch, loadHistory.
  rewrite (handler_bind_normal _ _ w w (localStorage w !! "pomodoroHistory"))
    by reflexivity.
  rewrite Hstored. reflexivity.
Qed.

Lemma loadHistory_unparsable text w :
  localStorage w !! "pomodoroHistory" = Some (OtherText text) →
  hooks (historyLoaded w) = hooks w.
Proof.
  intros Hstored. unfold historyLoaded, dispatch, loadHistory.
  rewrite (handler_bind_normal _ _ w w (localStorage w !! "pomodoroHistory"))
    by reflexivity.
  rewrite Hstored. destruct text; reflexivity.
Qed.

Lemma loadHistory_not_an_array v w :
  localStorage w !! "pomodoroHistory" = Some (JsonText v) →
  (∀ items, v ≠ JsArray items) →
  history (hooks (historyLoaded w)) = [].
Proof.
  intros Hstored Hv. unfold historyLoaded, dispatch, loadHistory.
  rewrite (handler_bind_normal _ _ w w (localStorage w !! "pomodoroHistory"))
    by reflexivity.
  rewrite Hstored. unfold Js.try_catch.
  rewrite (handler_bind_normal _ _ w w v) by reflexivity.
  destruct v; try reflexivity. destruct (Hv items eq_refl).
Qed.

Example loadHistory_null_element :
  hooks (historyLoaded
           (initial {[ "pomodoroHistory" := JsonText (JsArray [JsObject legacyRecord; JsNull]) ]}))
  = hooks (initial ∅).
Proof. reflexivity. Qed.

End Timer.

(** * More on the playback controller *)
Section PlaybackControls.
Import Music.

Implicit Types (w : World) (s : State) (l : list File).

Lemma lastSrc_app calls c :
  lastSrc (calls ++ [c]) =
    match c with
    | SetSrc url => Some url
    | _ => lastSrc calls
    end.
Proof.
  induction calls as [|c' calls IH]; [destruct c; reflexivity |].
  cbn [app lastSrc]. rewrite IH.
  destruct c; try reflexivity; destruct (lastSrc calls); reflexivity.
Qed.

Lemma nextSong_world w song :
  Js.length (playlist (hooks w)) ≠ 0 →
  Js.index (playlist (hooks w))
    (Js.rem (currentIndex (hooks w) + 1) (Js.length (playlist (hooks w)))) = Some song →
  dispatch nextSong w =
    advanced w (Js.rem (currentIndex (hooks w) + 1) (Js.length (playlist (hooks w)))) song.
Proof.
  intros Hn Hsong. unfold dispatch, nextSong, advanced.
  destruct (Z.eqb_spec (Js.length (playlist (hooks w))) 0); [done |].
  rewrite Hsong. destruct w as [s [calls|] urls]; reflexivity.
Qed.

Lemma prevSong_world w song :
  Js.length (playlist (hooks w)) ≠ 0 →
  Js.index (playlist (hooks w))
    (Js.rem (currentIndex (hooks w) - 1 + Js.length (playlist (hooks w)))
            (Js.length (playlist (hooks w)))) = Some song →
  dispatch prevSong w =
    advanced w (Js.rem (currentIndex (hooks w) - 1 + Js.length (playlist (hooks w)))
                       (Js.length (playlist (hooks w)))) song.
Proof.
  intros Hn Hsong. unfold dispatch, prevSong, advanced.
  destruct (Z.eqb_spec (Js.length (playlist (hooks w))) 0); [done |].
  rewrite Hsong. destruct w as [s [calls|] urls]; reflexivity.
Qed.

Lemma onEnd_world_advance w song :
  currentIndex (hooks w) + 1 < Js.length (playlist (hooks w)) →
  Js.index (playlist (hooks w)) (currentIndex (hooks w) + 1) = Some song →
  dispatch onEnd w = advanced w (currentIndex (hooks w) + 1) song.
Proof.
  intros Hlt Hsong. unfold dispatch, onEnd, advanced.
  destruct (Z.ltb_spec 0 (Js.length (playlist (hooks w)))) as [Hpos|Hneg].
  - destruct (Z.ltb_spec (currentIndex (hooks w) + 1)
                (Js.length (playlist (hooks w)))); [| lia].
    rewrite Hsong. destruct w as [s [calls|] urls]; reflexivity.
  - unfold Js.index in Hsong.
    destruct (0 <=? currentIndex (hooks w) + 1) eqn:Hi; [| done].
    apply lookup_lt_Some in Hsong. unfold Js.length in *. lia.
Qed.

Lemma onEnd_world_at_end w :
  playlist (hooks w) ≠ [] →
  Js.length (playlist (hooks w)) ≤ currentIndex (hooks w) + 1 →
  dispatch onEnd w =
    {| hooks := {| playlist := playlist (hooks w);
                   currentIndex := currentIndex (hooks w);
                   isPlaying := false; fileName := fileName (hooks w) |};
       audioRef := audioRef w; objectURLs := objectURLs w |}.
Proof.
  intros Hne Hlast. apply length_nonempty in Hne.
  unfold dispatch, onEnd.
  destruct (Z.ltb_spec 0 (Js.length (playlist (hooks w)))); [| lia].
  destruct (Z.ltb_spec (currentIndex (hooks w) + 1)
              (Js.length (playlist (hooks w)))); [lia |].
  reflexivity.
Qed.

Lemma playCurrent_world w calls song :
  audioRef w = Some calls →
  Js.index (playlist (hooks w)) (currentIndex (hooks w)) = Some song →
  dispatch playCurrent w = advanced w (currentIndex (hooks w)) song.
Proof.
  intros Ha Hsong. unfold dispatch, playCurrent, advanced.
  destruct w as [s a urls]. cbn in Ha, Hsong |- *. subst a.
  unfold mbind, handler_bind, Js.bind, mounted, Js.gets. cbn.
  rewrite Hsong. reflexivity.
Qed.

Lemma playCurrent_nothing w :
  Js.index (playlist (hooks w)) (currentIndex (hooks w)) = None →
  dispatch playCurrent w = w.
Proof.
  intros Hsong. unfold dispatch, playCurrent.
  destruct w as [s a urls]. cbn in Hsong |- *.
  unfold mbind, handler_bind, Js.bind, mounted, Js.gets. cbn.
  rewrite Hsong. reflexivity.
Qed.

Lemma advanced_plays_current w i song :
  Js.index (playlist (hooks w)) i = Some song → plays_current (advanced w i song).
Proof.
  intros Hsong calls' Hcalls. unfold advanced in Hcalls. cbn in Hcalls.
  destruct (audioRef w) as [calls|]; [| done]. cbn in Hcalls.
  injection Hcalls as <-.
  exists (List.length (objectURLs w)), song. split; [| split].
  - rewrite lastSrc_app, lastSrc_app. reflexivity.
  - cbn. apply list_lookup_middle. reflexivity.
  - exact Hsong.
Qed.

Lemma loadPlaylist_world first rest w :
  dispatch (loadPlaylist (first :: rest)) w =
    {| hooks := {| playlist := first :: rest; currentIndex := 0;
                   isPlaying := false; fileName := name first |};
       audioRef := (λ calls, (calls ++ [SetSrc (Some (List.length (objectURLs w)))])
                               ++ [Load]) <$> audioRef w;
       objectURLs := objectURLs w ++ [first] |}.
Proof. destruct w as [s [calls|] urls]; reflexivity. Qed.

Lemma stopMusic_world w calls :
  audioRef w = Some calls →
  dispatch stopMusic w =
    {| hooks := hooks initial;
       audioRef := Some (calls ++ [Pause; SetCurrentTime 0; SetSrc None; Load]);
       objectURLs := objectURLs w |}.
Proof.
  intros Ha. destruct w as [s a urls]. cbn in Ha. subst a.
  transitivity
    {| hooks := hooks initial;
       audioRef := Some ((((calls ++ [Pause]) ++ [SetCurrentTime 0]) ++ [SetSrc None])
                           ++ [Load]);
       objectURLs := urls |}; [reflexivity |].
  rewrite <- !app_assoc. reflexivity.
Qed.

Lemma stopMusic_unmounted w : audioRef w = None → dispatch stopMusic w = w.
Proof. intros Ha. destruct w as [s a urls]. cbn in Ha. subst a. reflexivity. Qed.

Lemma playCurrent_unmounted w : audioRef w = None → dispatch playCurrent w = w.
Proof.
  intros Ha. destruct w as [s a urls]. cbn in Ha. subst a.
  unfold dispatch, playCurrent. cbn.
  destruct (Js.index (playlist s) (currentIndex s)); reflexivity.
Qed.

Lemma pauseMusic_world w :
  dispatch pauseMusic w =
    {| hooks := {| playlist := playlist (hooks w); currentIndex := currentIndex (hooks w);
                   isPlaying := false; fileName := fileName (hooks w) |};
       audioRef := (λ calls, calls ++ [Pause]) <$> audioRef w;
       objectURLs := objectURLs w |}.
Proof. reflexivity. Qed.

Lemma resumeMusic_world w :
  dispatch resumeMusic w =
    {| hooks := {| playlist := playlist (hooks w); currentIndex := currentIndex (hooks w);
                   isPlaying := true; fileName := fileName (hooks w) |};
       audioRef := (λ calls, calls ++ [Play]) <$> audioRef w;
       objectURLs := objectURLs w |}.
Proof. reflexivity. Qed.

(** No operation mounts or unmounts the audio element. *)
Lemma audioRef_step op w : is_Some (audioRef (step op w)) ↔ is_Some (audioRef w).
Proof.
  assert (Hadv : ∀ i song, is_Some (audioRef (advanced w i song)) ↔ is_Some (audioRef w)).
  { intros i song. unfold advanced. cbn. rewrite fmap_is_Some. done. }
  destruct op as [files| | | | | | |]; cbn [step].
  - destruct files as [|first rest]; [done |].
    rewrite loadPlaylist_world. cbn. rewrite fmap_is_Some. done.
  - destruct (audioRef w) as [calls|] eqn:Ha.
    + destruct (Js.index (playlist (hooks w)) (currentIndex (hooks w))) as [song|] eqn:Hs.
      * rewrite (playCurrent_world w calls song Ha Hs), Hadv, ?Ha. done.
      * rewrite (playCurrent_nothing w Hs), ?Ha. done.
    + rewrite (playCurrent_unmounted w Ha), ?Ha. done.
  - rewrite pauseMusic_world. cbn. rewrite fmap_is_Some. done.
  - rewrite resumeMusic_world. cbn. rewrite fmap_is_Some. done.
  - destruct (audioRef w) as [calls|] eqn:Ha.
    + rewrite (stopMusic_world w calls Ha). cbn. split; eauto.
    + rewrite (stopMusic_unmounted w Ha), ?Ha. done.
  - unfold dispatch, nextSong.
    destruct (Js.length (playlist (hooks w)) =? 0); [done |].
    destruct (Js.index _ _); destruct w as [s [calls|] urls]; cbn; split; eauto;
      intros [? [=]].
  - unfold dispatch, prevSong.
    destruct (Js.length (playlist (hooks w)) =? 0); [done |].
    destruct (Js.index _ _); destruct w as [s [calls|] urls]; cbn; split; eauto;
      intros [? [=]].
  - unfold ended. destruct (audioRef w) as [calls|] eqn:Ha; [| rewrite ?Ha; done].
    unfold dispatch, onEnd.
    destruct (0 <? Js.length (playlist (hooks w))); [| cbn; rewrite ?Ha; done].
    destruct (currentIndex (hooks w) + 1 <? Js.length (playlist (hooks w))).
    + destruct (Js.index _ _); destruct w as [s a urls]; cbn in Ha; subst a; cbn;
        split; eauto.
    + cbn. rewrite ?Ha. done.
Qed.

(** Every operation keeps the index valid. *)
Lemma valid_index_step op w :
  valid_index (hooks w) → valid_index (hooks (step op w)).
Proof.
  intros Hvalid. destruct op as [files| | | | | | |]; cbn [step].
  - destruct files as [|first rest]; [exact Hvalid |].
    rewrite loadPlaylist_hooks. intros _. unfold Js.length. cbn. lia.
  - destruct (playCurrent_hooks w) as [-> | (song & _ & ->)]; exact Hvalid.
  - exact Hvalid.
  - exact Hvalid.
  - destruct (stopMusic_hooks w) as [-> | Hnil]; [exact Hvalid |].
    intros Hne. done.
  - destruct (decide (playlist (hooks w) = [])) as [Hnil | Hne].
    + rewrite (nextSong_empty w Hnil). exact Hvalid.
    + destruct (nextSong_in_range w Hne (Hvalid Hne)) as (song & _ & ->).
      intros _. cbn [playlist currentIndex].
      apply Z.mod_pos_bound, length_nonempty, Hne.
  - destruct (decide (playlist (hooks w) = [])) as [Hnil | Hne].
    + rewrite (prevSong_empty w Hnil). exact Hvalid.
    + destruct (prevSong_in_range w Hne (Hvalid Hne)) as (song & _ & ->).
      intros _. cbn [playlist currentIndex].
      apply Z.mod_pos_bound, length_nonempty, Hne.
  - unfold ended. destruct (audioRef w); [| exact Hvalid].
    destruct (decide (playlist (hooks w) = [])) as [Hnil | Hne].
    + rewrite (onEnd_empty w Hnil). exact Hvalid.
    + specialize (Hvalid Hne).
      destruct (Z.lt_ge_cases (currentIndex (hooks w) + 1)
                  (Js.length (playlist (hooks w)))) as [Hlt | Hge].
      * destruct (onEnd_advance w) as (song & _ & ->); [lia | lia |].
        intros _. cbn [playlist currentIndex]. lia.
      * rewrite (onEnd_at_end w Hne Hge). intros _. exact Hvalid.
Qed.

Lemma index_Some_nonempty l i song : Js.index l i = Some song → l ≠ [].
Proof. intros H ->. unfold Js.index in H. destruct (0 <=? i); done. Qed.

Lemma plays_current_step op w :
  is_Some (audioRef w) →
  valid_index (hooks w) →
  (playlist (hooks w) ≠ [] → plays_current w) →
  playlist (hooks (step op w)) ≠ [] → plays_current (step op w).
Proof.
  intros [calls Ha] Hvalid Hcur.
  destruct op as [files| | | | | | |]; cbn [step].
  - destruct files as [|first rest]; [exact Hcur |].
    intros _. rewrite loadPlaylist_world. intros calls' Hcalls. cbn in Hcalls.
    rewrite Ha in Hcalls. injection Hcalls as <-.
    exists (List.length (objectURLs w)), first. split; [| split].
    + rewrite lastSrc_app, lastSrc_app. reflexivity.
    + cbn. apply list_lookup_middle. reflexivity.
    + reflexivity.
  - destruct (Js.index (playlist (hooks w)) (currentIndex (hooks w))) as [song|] eqn:Hs.
    + rewrite (playCurrent_world w calls song Ha Hs). intros _.
      apply advanced_plays_current. exact Hs.
    + rewrite (playCurrent_nothing w Hs). exact Hcur.
  - rewrite pauseMusic_world. cbn [hooks playlist]. intros Hne calls' Hcalls.
    cbn in Hcalls. rewrite Ha in Hcalls. injection Hcalls as <-.
    destruct (Hcur Hne calls Ha) as (url & song & Hsrc & Hurl & Hsong).
    exists url, song. rewrite lastSrc_app. done.
  - rewrite resumeMusic_world. cbn [hooks playlist]. intros Hne calls' Hcalls.
    cbn in Hcalls. rewrite Ha in Hcalls. injection Hcalls as <-.
    destruct (Hcur Hne calls Ha) as (url & song & Hsrc & Hurl & Hsong).
    exists url, song. rewrite lastSrc_app. done.
  - rewrite (stopMusic_world w calls Ha). cbn. done.
  - destruct (decide (playlist (hooks w) = [])) as [Hnil | Hne].
    + rewrite (nextSong_empty w Hnil). exact Hcur.
    + intros _. pose proof (length_nonempty _ Hne).
      destruct (index_in_range (playlist (hooks w))
                  (Js.rem (currentIndex (hooks w) + 1) (Js.length (playlist (hooks w)))))
        as [song Hsong].
      { specialize (Hvalid Hne). unfold Js.rem.
        rewrite Z.rem_mod_nonneg by lia. apply Z.mod_pos_bound. lia. }
      rewrite (nextSong_world w song) by (done || lia).
      apply advanced_plays_current. exact Hsong.
  - destruct (decide (playlist (hooks w) = [])) as [Hnil | Hne].
    + rewrite (prevSong_empty w Hnil). exact Hcur.
    + intros _. pose proof (length_nonempty _ Hne).
      destruct (index_in_range (playlist (hooks w))
                  (Js.rem (currentIndex (hooks w) - 1 + Js.length (playlist (hooks w)))
                          (Js.length (playlist (hooks w)))))
        as [song Hsong].
      { specialize (Hvalid Hne). unfold Js.rem.
        rewrite Z.rem_mod_nonneg by lia. apply Z.mod_pos_bound. lia. }
      rewrite (prevSong_world w song) by (done || lia).
      apply advanced_plays_current. exact Hsong.
  - unfold ended. rewrite Ha.
    destruct (decide (playlist (hooks w) = [])) as [Hnil | Hne].
    + rewrite (onEnd_empty w Hnil). exact Hcur.
    + intros _. specialize (Hvalid Hne).
      destruct (Z.lt_ge_cases (currentIndex (hooks w) + 1)
                  (Js.length (playlist (hooks w)))) as [Hlt | Hge].
      * destruct (index_in_range (playlist (hooks w)) (currentIndex (hooks w) + 1))
          as [song Hsong]; [lia |].
        rewrite (onEnd_world_advance w song Hlt Hsong).
        apply advanced_plays_current. exact Hsong.
      * rewrite (onEnd_world_at_end w Hne Hge). intros calls' Hcalls.
        cbn in Hcalls. exact (Hcur Hne calls' Hcalls).
Qed.

(** X1: whatever operations the provider has gone through since it was
    mounted, while a playlist is loaded the source of the audio element is
    an object URL made from the item at [currentIndex]: what is heard is
    what the index and the display name point to. *)
Theorem audio_source_is_current_item (ops : list Op) :
  let w := play ops initial in
  is_Some (audioRef w)
  ∧ valid_index (hooks w)
  ∧ (playlist (hooks w) ≠ [] → plays_current w).
Proof.
  cbn zeta. unfold play.
  assert (Hinit : is_Some (audioRef initial) ∧ valid_index (hooks initial)
                  ∧ (playlist (hooks initial) ≠ [] → plays_current initial)).
  { split; [eexists; reflexivity |]. split; [intros H; done | intros H; done]. }
  revert Hinit. generalize initial as w.
  induction ops as [|op ops IH]; intros w Hw; [exact Hw |].
  cbn [foldl]. apply IH. destruct Hw as (Ha & Hvalid & Hcur).
  split; [apply audioRef_step; exact Ha |].
  split; [apply valid_index_step; exact Hvalid |].
  apply plays_current_step; assumption.
Qed.

Lemma cleared_step op w : cleared (hooks w) → cleared (hooks (step op w)).
Proof.
  intros Hc. destruct op as [files| | | | | | |]; cbn [step].
  - destruct files as [|first rest]; [exact Hc |].
    rewrite loadPlaylist_hooks. intros H. done.
  - destruct (playCurrent_hooks w) as [-> | (song & Hs & ->)]; [exact Hc |].
    intros Hnil. cbn in Hnil. destruct (index_Some_nonempty _ _ _ Hs Hnil).
  - exact Hc.
  - exact Hc.
  - destruct (audioRef w) as [calls|] eqn:Ha.
    + rewrite (stopMusic_world w calls Ha). intros _. done.
    + rewrite (stopMusic_unmounted w Ha). exact Hc.
  - destruct (decide (playlist (hooks w) = [])) as [Hnil | Hne].
    + rewrite (nextSong_empty w Hnil). exact Hc.
    + intros Hnil. exfalso. apply Hne. revert Hnil.
      unfold dispatch, nextSong.
      destruct (Js.length (playlist (hooks w)) =? 0); [done |].
      destruct (Js.index _ _); done.
  - destruct (decide (playlist (hooks w) = [])) as [Hnil | Hne].
    + rewrite (prevSong_empty w Hnil). exact Hc.
    + intros Hnil. exfalso. apply Hne. revert Hnil.
      unfold dispatch, prevSong.
      destruct (Js.length (playlist (hooks w)) =? 0); [done |].
      destruct (Js.index _ _); done.
  - unfold ended. destruct (audioRef w); [| exact Hc].
    destruct (decide (playlist (hooks w) = [])) as [Hnil | Hne].
    + rewrite (onEnd_empty w Hnil). exact Hc.
    + intros Hnil. exfalso. apply Hne. revert Hnil.
      unfold dispatch, onEnd.
      destruct (0 <? Js.length (playlist (hooks w))); [| done].
      destruct (_ <? _); [| done].
      destruct (Js.index _ _); done.
Qed.

(** Only [resume()] can mark an empty player as playing. *)
Lemma audible_step op w :
  valid_index (hooks w) →
  audible (hooks w) →
  (op = OpResume → playlist (hooks w) ≠ []) →
  audible (hooks (step op w)).
Proof.
  intros Hvalid Hau Hres. destruct op as [files| | | | | | |]; cbn [step].
  - destruct files as [|first rest]; [exact Hau |].
    rewrite loadPlaylist_hooks. intros H. done.
  - destruct (playCurrent_hooks w) as [-> | (song & Hs & ->)]; [exact Hau |].
    intros _. exact (index_Some_nonempty _ _ _ Hs).
  - intros H. done.
  - intros _. exact (Hres eq_refl).
  - destruct (audioRef w) as [calls|] eqn:Ha.
    + rewrite (stopMusic_world w calls Ha). intros H. done.
    + rewrite (stopMusic_unmounted w Ha). exact Hau.
  - destruct (decide (playlist (hooks w) = [])) as [Hnil | Hne].
    + rewrite (nextSong_empty w Hnil). exact Hau.
    + destruct (nextSong_in_range w Hne (Hvalid Hne)) as (song & _ & ->).
      intros _. exact Hne.
  - destruct (decide (playlist (hooks w) = [])) as [Hnil | Hne].
    + rewrite (prevSong_empty w Hnil). exact Hau.
    + destruct (prevSong_in_range w Hne (Hvalid Hne)) as (song & _ & ->).
      intros _. exact Hne.
  - unfold ended. destruct (audioRef w); [| exact Hau].
    destruct (decide (playlist (hooks w) = [])) as [Hnil | Hne].
    + rewrite (onEnd_empty w Hnil). exact Hau.
    + specialize (Hvalid Hne).
      destruct (Z.lt_ge_cases (currentIndex (hooks w) + 1)
                  (Js.length (playlist (hooks w)))) as [Hlt | Hge].
      * destruct (onEnd_advance w) as (song & _ & ->); [lia | lia |].
        intros _. exact Hne.
      * rewrite (onEnd_at_end w Hne Hge). intros H. done.
Qed.

(** A control either does nothing or is one operation; the two buttons and
    the close button act only while a display name is set. *)
Lemma control_as_step c w :
  control c w = w
  ∨ ∃ op, control c w = step op w
          ∧ (op = OpResume → fileName (hooks w) ≠ "").
Proof.
  destruct c as [[files|]| | | |]; cbn [control].
  - right. exists (OpLoadPlaylist files). done.
  - left. reflexivity.
  - destruct (fileName (hooks w)) eqn:Hf; [left; reflexivity |]. right.
    unfold dispatch, pageButton. destruct (isPlaying (hooks w)).
    + exists OpPause. done.
    + exists OpResume. done.
  - destruct (fileName (hooks w)) eqn:Hf; [left; reflexivity |]. right.
    unfold dispatch, barButton. destruct (isPlaying (hooks w)).
    + exists OpPause. done.
    + exists OpResume. done.
  - destruct (fileName (hooks w)) eqn:Hf; [left; reflexivity |]. right.
    exists OpStop. done.
  - right. exists OpAutoAdvance. done.
Qed.

(** X2: however the three components are used (files picked, the page
    button, the bar's button and its close button, tracks ending), the
    player stays consistent: the index is valid, the display name is that
    of the current item, the name is empty and the index 0 when nothing is
    loaded, and [isPlaying] is true only with a playlist loaded. *)
Theorem controls_keep_player_consistent (controls : list Control) :
  let s := hooks (operate controls initial) in
  valid_index s ∧ named s ∧ cleared s ∧ audible s.
Proof.
  cbn zeta. unfold operate.
  assert (Hinit : valid_index (hooks initial) ∧ named (hooks initial)
                  ∧ cleared (hooks initial) ∧ audible (hooks initial)).
  { split; [intros H; done |]. split; [intros song Hs; done |].
    split; [intros H; done | intros H; done]. }
  revert Hinit. generalize initial as w.
  induction controls as [|c controls IH]; intros w Hw; [exact Hw |].
  cbn [foldl]. apply IH. destruct Hw as (Hvalid & Hnamed & Hcl & Hau).
  destruct (control_as_step c w) as [-> | (op & -> & Hres)]; [done |].
  split; [apply valid_index_step; exact Hvalid |].
  split; [apply named_preserved; assumption |].
  split; [apply cleared_step; exact Hcl |].
  apply audible_step; [exact Hvalid | exact Hau |].
  intros Hop Hnil. apply (Hres Hop). apply Hcl. exact Hnil.
Qed.

(** X3: left to itself the player plays the list through once and stops:
    after [k] tracks have ended the index is [min (i + k) (n - 1)], and the
    player is still playing exactly when that did not run past the last
    track; further "ended" events at the end change nothing more. *)
Theorem auto_advance_plays_through w (k : nat) :
  is_Some (audioRef w) →
  playlist (hooks w) ≠ [] →
  0 ≤ currentIndex (hooks w) < Js.length (playlist (hooks w)) →
  let w' := Nat.iter k ended w in
  playlist (hooks w') = playlist (hooks w)
  ∧ currentIndex (hooks w')
    = Z.min (currentIndex (hooks w) + Z.of_nat k) (Js.length (playlist (hooks w)) - 1)
  ∧ ((0 < k)%nat →
     isPlaying (hooks w')
     = bool_decide (currentIndex (hooks w) + Z.of_nat k
                    ≤ Js.length (playlist (hooks w)) - 1)).
Proof.
  intros Ha Hne Hi. cbn zeta.
  set (n := Js.length (playlist (hooks w))) in *.
  set (i := currentIndex (hooks w)) in *.
  assert (H : is_Some (audioRef (Nat.iter k ended w))
              ∧ playlist (hooks (Nat.iter k ended w)) = playlist (hooks w)
              ∧ currentIndex (hooks (Nat.iter k ended w)) = Z.min (i + Z.of_nat k) (n - 1)
              ∧ ((0 < k)%nat →
                 isPlaying (hooks (Nat.iter k ended w))
                 = bool_decide (i + Z.of_nat k ≤ n - 1))).
  { induction k as [|k (IHa & IHp & IHi & _)].
    - change (Nat.iter 0 ended w) with w. fold i.
      split; [done |]. split; [done |]. split; [lia | lia].
    - change (Nat.iter (S k) ended w) with (ended (Nat.iter k ended w)).
      set (w' := Nat.iter k ended w) in *.
      split; [apply (audioRef_step OpAutoAdvance w'); exact IHa |].
      destruct IHa as [calls Hcalls]. unfold ended. rewrite Hcalls.
      assert (Hne' : playlist (hooks w') ≠ []) by (rewrite IHp; exact Hne).
      destruct (Z.lt_ge_cases (currentIndex (hooks w') + 1)
                  (Js.length (playlist (hooks w')))) as [Hlt | Hge].
      + destruct (onEnd_advance w') as (song & _ & ->); [lia | lia |].
        cbn [playlist currentIndex isPlaying]. rewrite IHp in Hlt. fold n in Hlt.
        split; [exact IHp |]. split; [lia |].
        intros _. symmetry. apply bool_decide_eq_true. lia.
      + rewrite (onEnd_at_end w' Hne' Hge).
        cbn [playlist currentIndex isPlaying]. rewrite IHp in Hge. fold n in Hge.
        split; [exact IHp |]. split; [lia |].
        intros _. symmetry. apply bool_decide_eq_false. lia. }
  destruct H as (_ & Hp & Hidx & Hplay). done.
Qed.

Lemma auto_advance_plays_through_witness :
  currentIndex (hooks (Nat.iter 5 ended picked)) = 2
  ∧ isPlaying (hooks (Nat.iter 5 ended picked)) = false.
Proof.
  destruct (auto_advance_plays_through picked 5) as (_ & H1 & H2).
  - eexists. reflexivity.
  - discriminate.
  - vm_compute. split; [discriminate | reflexivity].
  - split; [exact H1 | apply H2; lia].
Defined.

(** X4: [stop()] on a mounted player is a full teardown: the state is the
    initial one again, the audio element was paused, rewound and given the
    empty source, no object URL is released, and [playCurrent()], [next()],
    [previous()] and a late "ended" event then do nothing at all. *)
Theorem stop_is_a_teardown w calls :
  audioRef w = Some calls →
  let w' := step OpStop w in
  hooks w' = hooks initial
  ∧ audioRef w' = Some (calls ++ [Pause; SetCurrentTime 0; SetSrc None; Load])
  ∧ objectURLs w' = objectURLs w
  ∧ step OpPlayCurrent w' = w'
  ∧ step OpNext w' = w'
  ∧ step OpPrevious w' = w'
  ∧ step OpAutoAdvance w' = w'.
Proof.
  intros Ha. cbn zeta. cbn [step]. rewrite (stopMusic_world w calls Ha).
  repeat split.
Qed.

Lemma stop_is_a_teardown_witness :
  hooks (step OpStop lastPlaying) = hooks initial
  ∧ step OpNext (step OpStop lastPlaying) = step OpStop lastPlaying.
Proof.
  destruct (stop_is_a_teardown lastPlaying
              [SetSrc (Some 0%nat); Load; SetSrc (Some 1%nat); Play])
    as (H1 & _ & _ & _ & H2 & _); [reflexivity |].
  split; [exact H1 | exact H2].
Defined.

(** [k] presses of Previous from an index in range. *)
Lemma prev_iter w (k : nat) :
  playlist (hooks w) ≠ [] →
  0 ≤ currentIndex (hooks w) < Js.length (playlist (hooks w)) →
  playlist (hooks (Nat.iter k (step OpPrevious) w)) = playlist (hooks w)
  ∧ currentIndex (hooks (Nat.iter k (step OpPrevious) w))
    = (currentIndex (hooks w) - Z.of_nat k) `mod` Js.length (playlist (hooks w)).
Proof.
  intros Hne Hi. induction k as [|k [IHp IHi]].
  - simpl. split; [done |]. rewrite Z.sub_0_r, Z.mod_small; lia.
  - change (Nat.iter (S k) (step OpPrevious) w)
      with (dispatch prevSong (Nat.iter k (step OpPrevious) w)).
    set (w' := Nat.iter k (step OpPrevious) w) in *.
    destruct (prevSong_in_range w') as (song & _ & Hw').
    { rewrite IHp. exact Hne. }
    { rewrite IHp, IHi. apply Z.mod_pos_bound. lia. }
    rewrite Hw'. cbn [playlist currentIndex]. split; [exact IHp |].
    rewrite IHp, IHi.
    set (n := Js.length (playlist (hooks w))).
    replace ((currentIndex (hooks w) - Z.of_nat k) `mod` n - 1 + n)
      with ((currentIndex (hooks w) - Z.of_nat k) `mod` n + (n - 1)) by lia.
    rewrite Zplus_mod_idemp_l.
    replace (currentIndex (hooks w) - Z.of_nat k + (n - 1))
      with (currentIndex (hooks w) - Z.of_nat (S k) + 1 * n) by lia.
    apply Z_mod_plus_full.
Qed.

(** X5: on a non-empty playlist, from a valid index, any number [k] of
    [next()] followed by as many [previous()] comes back to the same item,
    and so does [k] times [previous()] followed by [k] times [next()]. *)
Theorem next_previous_k_times w (k : nat) :
  playlist (hooks w) ≠ [] →
  0 ≤ currentIndex (hooks w) < Js.length (playlist (hooks w)) →
  currentIndex (hooks (Nat.iter k (step OpPrevious) (Nat.iter k (step OpNext) w)))
  = currentIndex (hooks w)
  ∧ currentIndex (hooks (Nat.iter k (step OpNext) (Nat.iter k (step OpPrevious) w)))
    = currentIndex (hooks w)
  ∧ playlist (hooks (Nat.iter k (step OpPrevious) (Nat.iter k (step OpNext) w)))
    = playlist (hooks w)
  ∧ playlist (hooks (Nat.iter k (step OpNext) (Nat.iter k (step OpPrevious) w)))
    = playlist (hooks w).
Proof.
  intros Hne Hi.
  set (n := Js.length (playlist (hooks w))) in *.
  destruct (next_iter w k Hne Hi) as [Hnp Hni].
  destruct (prev_iter w k Hne Hi) as [Hpp Hpi].
  assert (Hpos : 0 < n) by lia.
  destruct (prev_iter (Nat.iter k (step OpNext) w) k) as [Hp1 Hi1].
  { rewrite Hnp. exact Hne. }
  { rewrite Hnp, Hni. apply Z.mod_pos_bound. exact Hpos. }
  destruct (next_iter (Nat.iter k (step OpPrevious) w) k) as [Hp2 Hi2].
  { rewrite Hpp. exact Hne. }
  { rewrite Hpp, Hpi. apply Z.mod_pos_bound. exact Hpos. }
  rewrite Hi1, Hi2, Hp1, Hp2, Hnp, Hpp, Hni, Hpi. fold n.
  rewrite Zminus_mod_idemp_l, Zplus_mod_idemp_l.
  replace (currentIndex (hooks w) + Z.of_nat k - Z.of_nat k)
    with (currentIndex (hooks w)) by lia.
  replace (currentIndex (hooks w) - Z.of_nat k + Z.of_nat k)
    with (currentIndex (hooks w)) by lia.
  rewrite Z.mod_small by exact Hi. done.
Qed.

Lemma next_previous_k_times_witness :
  currentIndex (hooks (Nat.iter 7 (step OpPrevious) (Nat.iter 7 (step OpNext) lastPlaying)))
  = 2.
Proof.
  destruct (next_previous_k_times lastPlaying 7) as (H & _).
  - discriminate.
  - vm_compute. split; [discriminate | reflexivity].
  - exact H.
Defined.

(** X16: picking files prepares the first one without starting it, and
    the play button (of the page or of the bar) then starts it: the audio
    element got that file's object URL as source, was loaded and is told to
    play, and the state shows the first item playing.  The buttons work
    because the display name is set, so the first file must have a name. *)
Theorem picked_playlist_starts_on_play first rest w calls :
  audioRef w = Some calls →
  name first ≠ "" →
  let w1 := control (FilesPicked (Some (first :: rest))) w in
  let w2 := control PageButtonClicked w1 in
  isPlaying (hooks w1) = false
  ∧ hooks w2 = {| playlist := first :: rest; currentIndex := 0;
                  isPlaying := true; fileName := name first |}
  ∧ audioRef w2
    = Some (calls ++ [SetSrc (Some (List.length (objectURLs w))); Load; Play])
  ∧ objectURLs w2 !! List.length (objectURLs w) = Some first
  ∧ control BarButtonClicked w1 = w2.
Proof.
  intros Ha Hname. cbn zeta.
  assert (Hw1 : control (FilesPicked (Some (first :: rest))) w =
                {| hooks := {| playlist := first :: rest; currentIndex := 0;
                               isPlaying := false; fileName := name first |};
                   audioRef := Some ((calls ++ [SetSrc (Some (List.length (objectURLs w)))])
                                       ++ [Load]);
                   objectURLs := objectURLs w ++ [first] |}).
  { cbn [control]. unfold handleFiles. rewrite loadPlaylist_world, Ha. reflexivity. }
  rewrite Hw1. cbn [control hooks fileName].
  destruct (name first) as [|c n] eqn:Hn; [done |].
  split; [reflexivity |]. split; [reflexivity |].
  split.
  { transitivity (Some (((calls ++ [SetSrc (Some (List.length (objectURLs w)))])
                           ++ [Load]) ++ [Play])); [reflexivity |].
    rewrite <- !app_assoc. reflexivity. }
  split; [apply list_lookup_middle; reflexivity | reflexivity].
Qed.

Lemma picked_playlist_starts_on_play_witness :
  hooks (control PageButtonClicked
           (control (FilesPicked (Some [trackA; trackB; trackC])) initial))
  = {| playlist := [trackA; trackB; trackC]; currentIndex := 0;
       isPlaying := true; fileName := "a.mp3" |}.
Proof.
  destruct (picked_playlist_starts_on_play trackA [trackB; trackC] initial [])
    as (_ & H & _); [reflexivity | discriminate |].
  exact H.
Defined.

End PlaybackControls.

(** * More on the Pomodoro page *)
Section TimerEvents.
Import Pomodoro.

Implicit Types (w : World) (r s : State) (p : PomodoroSettings) (e : Event).

(** ** What each event leaves *)

Lemma migrate_pure v w : (migrate v w).2 = w.
Proof.
  unfold migrate. destruct v as [| | | | |props]; try reflexivity.
  destruct (props !! "type") as [[| | |t| |]|]; try reflexivity.
  destruct (String.eqb t "break"); reflexivity.
Qed.

Lemma mapM_migrate_pure items w : (mapM migrate items w).2 = w.
Proof.
  induction items as [|v items IH]; [reflexivity |].
  change (mapM migrate (v :: items))
    with (y ← migrate v; k ← mapM migrate items; (mret (y :: k) : Handler (list JsValue))).
  unfold mbind, handler_bind, Js.bind.
  pose proof (migrate_pure v w) as Hv.
  destruct (migrate v w) as [[y|err] w1]; cbn in Hv; subst w1; [| reflexivity].
  destruct (mapM migrate items w) as [[k|err] w2]; cbn in IH; subst w2; reflexivity.
Qed.

(** The load sets the history or nothing. *)
Lemma historyLoaded_frame w :
  historyLoaded w = commit w ∨ ∃ h, historyLoaded w = commit (with_history h w).
Proof.
  unfold historyLoaded, dispatch, loadHistory.
  rewrite (handler_bind_normal _ _ w w (localStorage w !! "pomodoroHistory"))
    by reflexivity.
  destruct (localStorage w !! "pomodoroHistory") as [[v|text]|]; [| | left; reflexivity].
  - unfold Js.try_catch.
    rewrite (handler_bind_normal _ _ w w v) by reflexivity.
    destruct v as [| | | |items|props];
      try (right; exists []; reflexivity).
    pose proof (mapM_migrate_pure items w) as Hpure.
    unfold mbind, handler_bind, Js.bind.
    destruct (mapM migrate items w) as [[l|err] w1]; cbn in Hpure; subst w1.
    + right. exists l. reflexivity.
    + left. reflexivity.
  - destruct text; [left; reflexivity |]. left. reflexivity.
Qed.

(** Reset, Skip and the three tabs stop the timer and touch nothing else
    outside the state. *)
Lemma stops_world e w :
  stops e = true →
  isRunning (hooks (handle e w)) = false
  ∧ isRunningRef (handle e w) = false
  ∧ timerRef (handle e w) = timerRef w
  ∧ intervals (handle e w) = cleared_intervals w
  ∧ timers (handle e w) = timers w
  ∧ localStorage (handle e w) = localStorage w
  ∧ effects (handle e w) = effects w
  ∧ history (hooks (handle e w)) = history (hooks w)
  ∧ settings (hooks (handle e w)) = settings (hooks w)
  ∧ selectedTaskId (hooks (handle e w)) = selectedTaskId (hooks w)
  ∧ tasks (hooks (handle e w)) = tasks (hooks w).
Proof.
  intros He. unfold cleared_intervals.
  destruct e; try discriminate He; cbn [handle];
    unfold dispatch, resetTimer, skipOnClick, selectPomodoro, selectShortBreak,
      selectLongBreak, pauseTimer;
    destruct w as [s [h|] ? ? ? ? ? ?]; cbn; try destruct (isBreak s); cbn; done.
Qed.

(** The mode and the count they leave, and the time they load: the full
    duration of the mode they leave. *)
Lemma stops_mode e w :
  stops e = true →
  isBreak (hooks (handle e w))
  = match e with
    | SkipClicked => negb (isBreak (hooks w))
    | PomodoroTab => false
    | ShortBreakTab | LongBreakTab => true
    | _ => isBreak (hooks w)
    end
  ∧ isLongBreak (hooks (handle e w))
    = match e with
      | SkipClicked =>
          if isBreak (hooks w) then false
          else Js.rem_is_zero (sessionCount (hooks w) + 1)
                 (longBreakInterval (settings (hooks w)))
      | PomodoroTab | ShortBreakTab => false
      | LongBreakTab => true
      | _ => isLongBreak (hooks w)
      end
  ∧ sessionCount (hooks (handle e w))
    = match e with
      | SkipClicked =>
          if isBreak (hooks w) then sessionCount (hooks w)
          else sessionCount (hooks w) + 1
      | _ => sessionCount (hooks w)
      end
  ∧ timeLeft (hooks (handle e w))
    = modeDuration (settings (hooks w)) (hooks (handle e w)).
Proof.
  intros He.
  destruct e; try discriminate He; cbn [handle];
    unfold dispatch, resetTimer, skipOnClick, selectPomodoro, selectShortBreak,
      selectLongBreak, pauseTimer, modeDuration;
    destruct w as [[tl ir [|] il st ts hi sc se] [h|] ? ? ? ? ? ?]; cbn;
    try destruct (Js.rem_is_zero _ _); done.
Qed.

Lemma stops_flags e w :
  stops e = true →
  (isBreak (hooks w) = false → isLongBreak (hooks w) = false) →
  isBreak (hooks (handle e w)) = false → isLongBreak (hooks (handle e w)) = false.
Proof.
  intros He Hw. destruct (stops_mode e w He) as (-> & -> & _).
  destruct e; try discriminate He; try destruct (isBreak (hooks w));
    cbn; intuition congruence.
Qed.

Lemma quiet_world e w :
  quiet e = true →
  isRunning (hooks (handle e w)) = isRunning (hooks w)
  ∧ isBreak (hooks (handle e w)) = isBreak (hooks w)
  ∧ isLongBreak (hooks (handle e w)) = isLongBreak (hooks w)
  ∧ sessionCount (hooks (handle e w)) = sessionCount (hooks w)
  ∧ history (hooks (handle e w)) = history (hooks w)
  ∧ isRunningRef (handle e w) = isRunning (hooks w)
  ∧ timerRef (handle e w) = timerRef w
  ∧ intervals (handle e w) = intervals w
  ∧ timers (handle e w) = timers w
  ∧ localStorage (handle e w) = localStorage w
  ∧ effects (handle e w) = effects w.
Proof.
  intros He.
  destruct e as [| | | | | |[p|]|p|[ts|]|v|]; try discriminate He; cbn [handle];
    unfold settingsFetched, settingsChanged, dispatch, fetchSettings,
      handleSettingsChange, fetchTasks, taskSelected;
    destruct w as [s ? [|] ? ? ? ? ?]; cbn; done.
Qed.

Lemma toggle_start w :
  isRunning (hooks w) = false →
  handle StartPauseClicked w =
    {| hooks := {| timeLeft := timeLeft (hooks w); isRunning := true;
                   isBreak := isBreak (hooks w); isLongBreak := isLongBreak (hooks w);
                   selectedTaskId := selectedTaskId (hooks w); tasks := tasks (hooks w);
                   history := history (hooks w); sessionCount := sessionCount (hooks w);
                   settings := settings (hooks w) |};
       timerRef := Some (S (timers w)); isRunningRef := true;
       audioContextRef := audioContextRef w;
       intervals := <[S (timers w) := hooks w]> (intervals w);
       timers := S (timers w);
       localStorage := localStorage w; effects := effects w |}.
Proof.
  intros Hr. cbn [handle]. unfold dispatch, toggleTimer. rewrite Hr. reflexivity.
Qed.

Lemma toggle_pause w :
  isRunning (hooks w) = true →
  handle StartPauseClicked w =
    {| hooks := {| timeLeft := timeLeft (hooks w); isRunning := false;
                   isBreak := isBreak (hooks w); isLongBreak := isLongBreak (hooks w);
                   selectedTaskId := selectedTaskId (hooks w); tasks := tasks (hooks w);
                   history := history (hooks w); sessionCount := sessionCount (hooks w);
                   settings := settings (hooks w) |};
       timerRef := timerRef w; isRunningRef := false;
       audioContextRef := audioContextRef w;
       intervals := cleared_intervals w;
       timers := timers w;
       localStorage := localStorage w; effects := effects w |}.
Proof.
  intros Hr. cbn [handle]. unfold dispatch, toggleTimer, cleared_intervals. rewrite Hr.
  destruct w as [s [h|] ? ? ? ? ? ?]; reflexivity.
Qed.

(** What [completeSession] does outside the state: it clears the interval
    of [timerRef], stores the whole new history, plays the tone (when the
    audio context exists) and shows one alert. *)
Lemma completeSession_world now iso r w :
  let w' := (completeSession now iso r w).2 in
  timerRef w' = timerRef w
  ∧ intervals w' = cleared_intervals w
  ∧ timers w' = timers w
  ∧ audioContextRef w' = audioContextRef w
  ∧ localStorage w'
    = <["pomodoroHistory" := JsonText (JsArray (history (hooks w')))]> (localStorage w)
  ∧ effects w'
    = effects w ++ (if audioContextRef w then [Tone] else [])
        ++ [Alert (if isBreak r then "Break complete! Time to focus."
                   else if isLongBreak r then "Great! Long break complete."
                   else "Focus session complete! Take a break.")].
Proof.
  unfold completeSession, switchSession, pauseTimer, playNotificationSound,
    cleared_intervals.
  destruct w as [s [h|] ? [|] ? ? ? eff];
    destruct r as [tl ir [|] il st ts hi sc se]; cbn;
    try (destruct (Js.rem_is_zero (sc + 1) (longBreakInterval se)); cbn);
    repeat split; try reflexivity;
    symmetry; exact (List.app_assoc eff [Tone] [Alert _]).
Qed.

Lemma cleared_intervals_empty w : timer_ok w → cleared_intervals w = ∅.
Proof.
  intros (_ & Hint & _). unfold cleared_intervals.
  destruct (isRunning (hooks w)).
  - destruct Hint as (h & r & -> & -> & _). apply delete_singleton_eq.
  - rewrite Hint. destruct (timerRef w); [apply delete_empty | done].
Qed.

(** The callback that a countdown can reach, in a well-formed state. *)
Lemma active_closure w :
  timer_ok w →
  timerRef w ≫= (λ h, intervals w !! h)
  = if isRunning (hooks w) then timerRef w ≫= (λ h, intervals w !! h) else None.
Proof.
  intros (_ & Hint & _). destruct (isRunning (hooks w)); [done |].
  rewrite Hint. destruct (timerRef w); [apply lookup_empty | done].
Qed.

(** The render that a countdown reaches, while the timer runs. *)
Lemma running_closure w :
  timer_ok w → isRunning (hooks w) = true →
  ∃ r, timerRef w ≫= (λ h, intervals w !! h) = Some r
       ∧ isBreak r = isBreak (hooks w)
       ∧ isLongBreak r = isLongBreak (hooks w)
       ∧ sessionCount r = sessionCount (hooks w)
       ∧ history r = history (hooks w).
Proof.
  intros (_ & Hint & _) Hrun. rewrite Hrun in Hint.
  destruct Hint as (h & r & Hh & Hi & Hrest).
  exists r. split; [| exact Hrest].
  rewrite Hh, Hi. cbn. apply lookup_singleton_eq.
Qed.

Lemma stopped_closure w :
  timer_ok w → isRunning (hooks w) = false →
  timerRef w ≫= (λ h, intervals w !! h) = None.
Proof.
  intros Hok Hrun. rewrite (active_closure w Hok), Hrun. reflexivity.
Qed.

(** Every event keeps the timer and its interval in agreement. *)
Lemma timer_ok_handle e w : timer_ok w → timer_ok (handle e w).
Proof.
  intros Hok. pose proof Hok as (Href & Hint & Hflag).
  destruct (stops e) eqn:Hstops.
  { destruct (stops_world e w Hstops) as (Hr & Hrr & _ & Hi & _).
    split; [congruence |]. split; [| apply stops_flags; assumption].
    rewrite Hr, Hi. apply cleared_intervals_empty, Hok. }
  destruct (quiet e) eqn:Hquiet.
  { destruct (quiet_world e w Hquiet)
      as (Hr & Hb & Hl & Hc & Hh & Hrr & Ht & Hi & _).
    split; [congruence |]. rewrite Hr, Hb, Hl, Hc, Hh, Ht, Hi.
    split; assumption. }
  destruct e; try discriminate Hstops; try discriminate Hquiet.
  - destruct (isRunning (hooks w)) eqn:Hrun.
    + rewrite (toggle_pause w Hrun). split; [reflexivity |].
      split; [| exact Hflag]. cbn. apply cleared_intervals_empty, Hok.
    + rewrite (toggle_start w Hrun). split; [reflexivity |].
      split; [| exact Hflag]. cbn.
      exists (S (timers w)), (hooks w). rewrite Hint, insert_empty. done.
  - cbn [handle]. unfold countdownEnds.
    destruct (isRunning (hooks w)) eqn:Hrun.
    + destruct (running_closure w Hok Hrun) as (r & -> & Hb & Hl & Hc & Hh).
      destruct (completeSession_hooks now iso r w) as [entry He].
      destruct (completeSession_world now iso r w) as (_ & Hi & _).
      split; [reflexivity |]. cbn [hooks commit intervals].
      rewrite He, Hi. cbn [isRunning isBreak isLongBreak].
      split; [apply cleared_intervals_empty, Hok |].
      destruct (isBreak r); [done | discriminate].
    + rewrite (stopped_closure w Hok Hrun). exact Hok.
Qed.

Lemma timer_ok_mounted stored : timer_ok (mounted stored).
Proof.
  unfold mounted.
  destruct (historyLoaded_frame (initial stored)) as [-> | [h ->]];
    (split; [reflexivity |]; split; [reflexivity | done]).
Qed.

Lemma timer_ok_run events w : timer_ok w → timer_ok (run events w).
Proof.
  revert w. induction events as [|e events IH]; intros w Hok; [exact Hok |].
  cbn [run foldl]. apply IH, timer_ok_handle, Hok.
Qed.

(** X6: however the page is used after it was mounted, the timer and its
    interval agree: the ref mirrors [isRunning]; while running there is
    exactly one interval, the one [timerRef] holds, so Pause, Reset, Skip
    and the tabs always stop the countdown; while stopped no interval is
    left behind; and focus mode never carries the long-break flag. *)
Theorem timer_and_interval_agree (stored : gmap string Stored) (events : list Event) :
  timer_ok (run events (mounted stored)).
Proof. apply timer_ok_run, timer_ok_mounted. Qed.


Lemma thirdDone_reached :
  thirdDone = run (replicate 6 SkipClicked) (mounted ∅).
Proof. vm_compute. reflexivity. Qed.

Lemma timer_ok_thirdDone : timer_ok thirdDone.
Proof. rewrite thirdDone_reached. apply timer_ok_run, timer_ok_mounted. Qed.

(** X8: Start then Pause is a round trip.  From a stopped state, Start
    registers exactly one interval, for the render it was pressed in, and
    Pause right after gives back the very same state, time left included,
    with no interval behind. *)
Theorem start_pause_round_trip w :
  timer_ok w →
  isRunning (hooks w) = false →
  let started := handle StartPauseClicked w in
  isRunning (hooks started) = true
  ∧ timeLeft (hooks started) = timeLeft (hooks w)
  ∧ intervals started = {[ S (timers w) := hooks w ]}
  ∧ hooks (handle StartPauseClicked started) = hooks w
  ∧ intervals (handle StartPauseClicked started) = ∅.
Proof.
  intros Hok Hrun. cbn zeta.
  pose proof (timer_ok_handle StartPauseClicked w Hok) as Hok'.
  pose proof Hok as (_ & Hint & _). rewrite Hrun in Hint.
  rewrite (toggle_start w Hrun) in Hok' |- *.
  rewrite toggle_pause by reflexivity. cbn.
  split; [reflexivity |]. split; [reflexivity |].
  split; [rewrite Hint; apply insert_empty |].
  split; [destruct (hooks w); cbn in *; subst; reflexivity |].
  apply (cleared_intervals_empty _ Hok').
Qed.

Lemma start_pause_round_trip_witness :
  hooks (handle StartPauseClicked (handle StartPauseClicked thirdDone)) = hooks thirdDone.
Proof.
  destruct (start_pause_round_trip thirdDone) as (_ & _ & _ & H & _).
  - exact timer_ok_thirdDone.
  - reflexivity.
  - exact H.
Defined.



Lemma skip_break_hooks w :
  isBreak (hooks w) = true →
  hooks (handle SkipClicked w) =
    {| timeLeft := workDuration (settings (hooks w)) * 60;
       isRunning := false; isBreak := false; isLongBreak := false;
       selectedTaskId := selectedTaskId (hooks w); tasks := tasks (hooks w);
       history := history (hooks w);
       sessionCount := sessionCount (hooks w);
       settings := settings (hooks w) |}.
Proof.
  intros Hb. cbn [handle]. unfold dispatch, skipOnClick, pauseTimer. rewrite Hb.
  destruct w as [s [h|] ? ? ? ? ? ?]; reflexivity.
Qed.

(** X10: skipped focus sessions count like completed ones.  Skipping
    through [k] focus sessions and their breaks from a focus state leaves
    the page in focus mode with [k] more sessions counted and the history
    and settings untouched, and the next skipped focus session goes to a
    long break exactly when [(sessionCount + k + 1) mod longBreakInterval]
    is [0]. *)
Theorem skipping_counts_sessions w (k : nat) :
  isBreak (hooks w) = false →
  longBreakInterval (settings (hooks w)) ≠ 0 →
  let wk := Nat.iter (2 * k) (handle SkipClicked) w in
  isBreak (hooks wk) = false
  ∧ sessionCount (hooks wk) = sessionCount (hooks w) + Z.of_nat k
  ∧ settings (hooks wk) = settings (hooks w)
  ∧ history (hooks wk) = history (hooks w)
  ∧ (isLongBreak (hooks (handle SkipClicked wk)) = true
     ↔ (sessionCount (hooks w) + Z.of_nat k + 1)
         `mod` longBreakInterval (settings (hooks w)) = 0).
Proof.
  intros Hb Hn. cbn zeta.
  assert (H : isBreak (hooks (Nat.iter (2 * k) (handle SkipClicked) w)) = false
              ∧ sessionCount (hooks (Nat.iter (2 * k) (handle SkipClicked) w))
                = sessionCount (hooks w) + Z.of_nat k
              ∧ settings (hooks (Nat.iter (2 * k) (handle SkipClicked) w))
                = settings (hooks w)
              ∧ history (hooks (Nat.iter (2 * k) (handle SkipClicked) w))
                = history (hooks w)).
  { induction k as [|k (IHb & IHc & IHs & IHh)].
    - change (Nat.iter (2 * 0) (handle SkipClicked) w) with w.
      split; [done |]. split; [lia | done].
    - replace (2 * S k)%nat with (S (S (2 * k))) by lia.
      change (Nat.iter (S (S (2 * k))) (handle SkipClicked) w)
        with (handle SkipClicked
                (handle SkipClicked (Nat.iter (2 * k) (handle SkipClicked) w))).
      set (wk := Nat.iter (2 * k) (handle SkipClicked) w) in *.
      assert (Hmid : hooks (handle SkipClicked wk) = _) by exact (skip_focus_hooks wk IHb).
      cbn zeta in Hmid.
      rewrite skip_break_hooks by (rewrite Hmid; reflexivity).
      rewrite Hmid. cbn [isBreak sessionCount settings history].
      split; [done |]. split; [lia | done]. }
  destruct H as (Hkb & Hkc & Hks & Hkh).
  split; [done |]. split; [done |]. split; [done |]. split; [done |].
  set (wk := Nat.iter (2 * k) (handle SkipClicked) w) in *.
  assert (Hmid : hooks (handle SkipClicked wk) = _) by exact (skip_focus_hooks wk Hkb).
  cbn zeta in Hmid. rewrite Hmid. cbn [isLongBreak].
  rewrite Hkc, Hks. apply rem_is_zero_mod. exact Hn.
Qed.

Lemma skipping_counts_sessions_witness :
  sessionCount (hooks (Nat.iter 6 (handle SkipClicked) (initial ∅))) = 3
  ∧ isLongBreak (hooks (handle SkipClicked (Nat.iter 6 (handle SkipClicked) (initial ∅))))
    = true.
Proof.
  destruct (skipping_counts_sessions (initial ∅) 3) as (_ & H1 & _ & _ & H2).
  - reflexivity.
  - discriminate.
  - split; [exact H1 | apply H2; reflexivity].
Defined.

(** ** Changes while the timer runs *)

Lemma run_quiet_frame (events : list Event) w :
  Forall (λ e, quiet e = true) events →
  isRunning (hooks (run events w)) = isRunning (hooks w)
  ∧ isBreak (hooks (run events w)) = isBreak (hooks w)
  ∧ isLongBreak (hooks (run events w)) = isLongBreak (hooks w)
  ∧ sessionCount (hooks (run events w)) = sessionCount (hooks w)
  ∧ history (hooks (run events w)) = history (hooks w)
  ∧ timerRef (run events w) = timerRef w
  ∧ intervals (run events w) = intervals w.
Proof.
  intros Hq. revert w. induction Hq as [|e events He _ IH]; intros w; [done |].
  cbn [run foldl]. fold (run events (handle e w)).
  destruct (IH (handle e w)) as (-> & -> & -> & -> & -> & -> & ->).
  destruct (quiet_world e w He) as (? & ? & ? & ? & ? & _ & ? & ? & _). done.
Qed.

(** The record that [completeSession] writes depends on the render it
    belongs to alone. *)
Lemma completeSession_history now iso r w1 w2 :
  history (hooks (completeSession now iso r w1).2)
  = history (hooks (completeSession now iso r w2).2).
Proof.
  unfold completeSession, switchSession, pauseTimer, playNotificationSound.
  destruct w1 as [s1 [h1|] ? [|] ? ? ? ?]; destruct w2 as [s2 [h2|] ? [|] ? ? ? ?];
    destruct r as [tl ir [|] il st ts hi sc se]; cbn;
    try (destruct (Js.rem_is_zero (sc + 1) (longBreakInterval se)); cbn);
    reflexivity.
Qed.

(** X11: what a session leaves when it ends was fixed when Start was
    pressed.  Settings that arrive, tasks that are fetched and a task that
    is chosen while the timer runs are kept in the state, but the end of
    the countdown writes the same history record, loads the same time and
    goes to the same mode and count as if they had not happened: the
    duration and the linked task it uses are those of the render in which
    Start was pressed. *)
Theorem completion_uses_the_render_of_start w (changes : list Event) now iso :
  timer_ok w →
  isRunning (hooks w) = false →
  Forall (λ e, quiet e = true) changes →
  let started := handle StartPauseClicked w in
  let changed := run changes started in
  let a := handle (CountdownEnded now iso) changed in
  let b := handle (CountdownEnded now iso) started in
  history (hooks a) = history (hooks b)
  ∧ timeLeft (hooks a) = timeLeft (hooks b)
  ∧ isBreak (hooks a) = isBreak (hooks b)
  ∧ isLongBreak (hooks a) = isLongBreak (hooks b)
  ∧ sessionCount (hooks a) = sessionCount (hooks b)
  ∧ settings (hooks a) = settings (hooks changed)
  ∧ selectedTaskId (hooks a) = selectedTaskId (hooks changed)
  ∧ tasks (hooks a) = tasks (hooks changed).
Proof.
  intros Hok Hrun Hq. cbn zeta.
  pose proof Hok as (_ & Hint & _). rewrite Hrun in Hint.
  set (started := handle StartPauseClicked w).
  assert (Hclosure : timerRef started ≫= (λ h, intervals started !! h) = Some (hooks w)).
  { unfold started. rewrite (toggle_start w Hrun). cbn. apply lookup_insert_eq. }
  destruct (run_quiet_frame changes started Hq) as (_ & _ & Hl & Hc & _ & Ht & Hi).
  cbn [handle]. unfold countdownEnds. rewrite Ht, Hi, Hclosure.
  cbn [hooks commit].
  destruct (completeSession_hooks now iso (hooks w) (run changes started)) as [e1 H1].
  destruct (completeSession_hooks now iso (hooks w) started) as [e2 H2].
  split; [apply completeSession_history |].
  rewrite H1, H2. cbn [timeLeft isBreak isLongBreak sessionCount settings
                       selectedTaskId tasks].
  rewrite Hl, Hc. done.
Qed.

Lemma completion_uses_the_render_of_start_witness :
  let changes := [SettingsChangedEvent newSettings; TaskChosen "task-7"] in
  let changed := run changes (handle StartPauseClicked thirdDone) in
  settings (hooks changed) = newSettings
  ∧ timeLeft (hooks (handle (CountdownEnded 0 "") changed)) = 300.
Proof.
  intros changes changed.
  destruct (completion_uses_the_render_of_start thirdDone changes 0 "")
    as (_ & H & _).
  - exact timer_ok_thirdDone.
  - reflexivity.
  - repeat constructor.
  - split; [reflexivity |]. fold changed in H. rewrite H. reflexivity.
Defined.

(** ** The history and the storage *)

Lemma settled_sessionObject (session : PomodoroSession) : settled (sessionObject session).
Proof.
  intros w. unfold sessionObject, migrate.
  destruct (taskId session);
    rewrite ?(lookup_insert_ne (M := gmap string)) by done;
    rewrite lookup_insert_eq; destruct (type session); reflexivity.
Qed.

(** What [migrate] gives back is settled. *)
Lemma migrate_settles v v' w w' :
  migrate v w = (Js.Normal v', w') → settled v'.
Proof.
  unfold migrate. intros H w0.
  destruct v as [| | | | |props]; try (injection H as <- _; reflexivity);
    [discriminate H |].
  destruct (props !! "type") as [[| | |t| |]|] eqn:Ht;
    try (injection H as <- _; unfold migrate; rewrite Ht; reflexivity).
  destruct (String.eqb t "break") eqn:Hb; injection H as <- _; unfold migrate.
  - rewrite lookup_insert_eq. reflexivity.
  - rewrite Ht, Hb. reflexivity.
Qed.

Lemma mapM_migrate_settles items loaded w w' :
  mapM migrate items w = (Js.Normal loaded, w') → Forall settled loaded.
Proof.
  revert loaded w'. induction items as [|v items IH]; intros loaded w' H.
  - injection H as <- _. constructor.
  - change (mapM migrate (v :: items))
      with (y ← migrate v; k ← mapM migrate items;
            (mret (y :: k) : Handler (list JsValue))) in H.
    unfold mbind, handler_bind, Js.bind in H.
    destruct (migrate v w) as [[y|err] w1] eqn:Hv; [| discriminate H].
    pose proof (migrate_pure v w) as Hp. rewrite Hv in Hp. cbn in Hp. subst w1.
    destruct (mapM migrate items w) as [[k|err] w2] eqn:Hk; [| discriminate H].
    injection H as <- _. constructor; [exact (migrate_settles _ _ _ _ Hv) |].
    exact (IH _ _ eq_refl).
Qed.

Lemma mapM_migrate_settled items w :
  Forall settled items → mapM migrate items w = (Js.Normal items, w).
Proof.
  induction 1 as [|v items Hv _ IH]; [reflexivity |].
  change (mapM migrate (v :: items))
    with (y ← migrate v; k ← mapM migrate items;
          (mret (y :: k) : Handler (list JsValue))).
  rewrite (handler_bind_normal _ _ _ _ _ (Hv w)).
  rewrite (handler_bind_normal _ _ _ _ _ IH). reflexivity.
Qed.

(** X12: migration is idempotent: what a successful load gives is loaded
    again as it is. *)
Theorem migration_is_idempotent items loaded w :
  mapM migrate items w = (Js.Normal loaded, w) →
  mapM migrate loaded w = (Js.Normal loaded, w).
Proof.
  intros H. apply mapM_migrate_settled. exact (mapM_migrate_settles _ _ _ _ H).
Qed.

Lemma migration_is_idempotent_witness :
  ∃ loaded,
    mapM migrate [JsObject legacyRecord; JsObject focusRecord] (initial ∅)
    = (Js.Normal loaded, initial ∅)
    ∧ mapM migrate loaded (initial ∅) = (Js.Normal loaded, initial ∅).
Proof.
  eexists. split; [reflexivity |].
  apply (migration_is_idempotent [JsObject legacyRecord; JsObject focusRecord]).
  reflexivity.
Defined.

Lemma handler_bind_throw {W A B} (m : Js.Handler W A) (f : A → Js.Handler W B)
    (w w' : W) (err : Js.Error) :
  m w = (Js.Throw err, w') → (m ≫= f) w = (Js.Throw err, w').
Proof. intros H. unfold mbind, handler_bind, Js.bind. rewrite H. reflexivity. Qed.

(** What the load leaves in the history, case by case. *)
Lemma historyLoaded_history w :
  localStorage (historyLoaded w) = localStorage w
  ∧ (history (hooks (historyLoaded w)) = history (hooks w)
     ∨ history (hooks (historyLoaded w)) = []
     ∨ ∃ items loaded,
         localStorage w !! "pomodoroHistory" = Some (JsonText (JsArray items))
         ∧ mapM migrate items w = (Js.Normal loaded, w)
         ∧ history (hooks (historyLoaded w)) = loaded).
Proof.
  split.
  { destruct (historyLoaded_frame w) as [-> | [h ->]]; reflexivity. }
  unfold historyLoaded, dispatch, loadHistory.
  rewrite (handler_bind_normal _ _ w w (localStorage w !! "pomodoroHistory"))
    by reflexivity.
  destruct (localStorage w !! "pomodoroHistory") as [[v|text]|] eqn:Hs;
    [| left; destruct text; reflexivity | left; reflexivity].
  unfold Js.try_catch.
  rewrite (handler_bind_normal _ _ w w v) by reflexivity.
  destruct v as [| | | |items|props]; try (right; left; reflexivity).
  cbv beta iota.
  pose proof (mapM_migrate_pure items w) as Hpure.
  destruct (mapM migrate items w) as [[l|err] w1] eqn:Hm; cbn in Hpure; subst w1.
  - right. right. exists items, l. split; [reflexivity |]. split; [exact Hm |].
    rewrite (handler_bind_normal _ _ _ _ _ Hm). reflexivity.
  - left. rewrite (handler_bind_throw _ _ _ _ _ Hm). reflexivity.
Qed.

Lemma mounted_settled stored : Forall settled (history (hooks (mounted stored))).
Proof.
  unfold mounted.
  destruct (historyLoaded_history (initial stored))
    as (_ & [-> | [-> | (items & loaded & _ & H & ->)]]);
    [constructor | constructor |].
  exact (mapM_migrate_settles _ _ _ _ H).
Qed.

(** Loading a store whose history is settled gives that history. *)
Lemma mounted_of_settled stored h :
  stored !! "pomodoroHistory" = Some (JsonText (JsArray h)) →
  Forall settled h →
  history (hooks (mounted stored)) = h.
Proof.
  intros Hs Hh. unfold mounted, historyLoaded, dispatch, loadHistory.
  rewrite (handler_bind_normal _ _ _ _
             (localStorage (initial stored) !! "pomodoroHistory")) by reflexivity.
  change (localStorage (initial stored)) with stored. rewrite Hs.
  unfold Js.try_catch.
  rewrite (handler_bind_normal _ _ _ _ (JsArray h)) by reflexivity.
  rewrite (handler_bind_normal _ _ _ _ _ (mapM_migrate_settled h _ Hh)).
  reflexivity.
Qed.

(** The record of a completed session is a session object. *)
Lemma completeSession_entry now iso r w :
  ∃ session,
    history (hooks (completeSession now iso r w).2) = sessionObject session :: history r.
Proof.
  unfold completeSession, switchSession, pauseTimer, playNotificationSound.
  destruct w as [s [h|] ? [|] ? ? ? ?];
    destruct r as [tl ir [|] il st ts hi sc se]; cbn;
    try (destruct (Js.rem_is_zero (sc + 1) (longBreakInterval se)); cbn);
    eexists; reflexivity.
Qed.

Lemma history_kept_handle e w :
  timer_ok w → history_kept w → history_kept (handle e w).
Proof.
  intros Hok [Hset Hre].
  assert (Hsame : history (hooks (handle e w)) = history (hooks w)
                  → localStorage (handle e w) = localStorage w
                  → history_kept (handle e w)).
  { intros Hh Hs. split; rewrite ?Hs, Hh; assumption. }
  destruct (stops e) eqn:Hstops.
  { destruct (stops_world e w Hstops) as (_ & _ & _ & _ & _ & Hs & _ & Hh & _). auto. }
  destruct (quiet e) eqn:Hquiet.
  { destruct (quiet_world e w Hquiet) as (_ & _ & _ & _ & Hh & _ & _ & _ & _ & Hs & _).
    auto. }
  destruct e; try discriminate Hstops; try discriminate Hquiet.
  - apply Hsame; destruct (isRunning (hooks w)) eqn:Hrun;
      rewrite ?(toggle_pause w Hrun), ?(toggle_start w Hrun); reflexivity.
  - cbn [handle]. unfold countdownEnds.
    destruct (isRunning (hooks w)) eqn:Hrun.
    + destruct (running_closure w Hok Hrun) as (r & -> & _ & _ & _ & Hh).
      destruct (completeSession_entry now iso r w) as [session He].
      destruct (completeSession_world now iso r w) as (_ & _ & _ & _ & Hs & _).
      cbn zeta in Hs.
      assert (Hall : Forall settled (history (hooks (completeSession now iso r w).2))).
      { rewrite He, Hh. constructor; [apply settled_sessionObject | exact Hset]. }
      split; [exact Hall |]. cbn [hooks commit localStorage]. rewrite Hs.
      apply mounted_of_settled; [apply lookup_insert_eq | exact Hall].
    + rewrite (stopped_closure w Hok Hrun). split; assumption.
Qed.

Lemma mounted_localStorage stored : localStorage (mounted stored) = stored.
Proof.
  unfold mounted. destruct (historyLoaded_history (initial stored)) as [-> _].
  reflexivity.
Qed.

(** X13: at any point of its use the page can be reloaded without loss of
    history: mounting a fresh page over what is in the storage gives exactly
    the history that the state holds (the mode, the time left and the
    session count are not stored and start over). *)
Theorem history_survives_reload (stored : gmap string Stored) (events : list Event) :
  let w := run events (mounted stored) in
  history (hooks (mounted (localStorage w))) = history (hooks w).
Proof.
  cbn zeta.
  assert (H : timer_ok (run events (mounted stored))
              ∧ history_kept (run events (mounted stored))).
  { assert (H0 : timer_ok (mounted stored) ∧ history_kept (mounted stored)).
    { split; [apply timer_ok_mounted |].
      split; [apply mounted_settled |]. rewrite mounted_localStorage. reflexivity. }
    revert H0. generalize (mounted stored) as w.
    induction events as [|e events IH]; intros w Hw; [exact Hw |].
    cbn [run foldl]. apply IH. destruct Hw as [Hok Hk].
    split; [apply timer_ok_handle, Hok | apply history_kept_handle; assumption]. }
  destruct H as (_ & _ & H). exact H.
Qed.

(** ** What the page displays *)

(** X14: with a positive interval and a count that is not negative, the
    number shown in "Session ... of ..." lies between 1 and the interval,
    and it is the interval itself exactly when the count is a multiple of
    it (so a fresh page, with no session done, shows the interval). *)
Theorem session_number_in_range s :
  0 < longBreakInterval (settings s) →
  0 ≤ sessionCount s →
  1 ≤ sessionNumber s ≤ longBreakInterval (settings s)
  ∧ (sessionNumber s = longBreakInterval (settings s)
     ↔ sessionCount s `mod` longBreakInterval (settings s) = 0)
  ∧ (sessionCount s `mod` longBreakInterval (settings s) ≠ 0 →
     sessionNumber s = sessionCount s `mod` longBreakInterval (settings s)).
Proof.
  intros Hn Hc. unfold sessionNumber, Js.rem.
  destruct (Z.eqb_spec (longBreakInterval (settings s)) 0); [lia |].
  rewrite Z.rem_mod_nonneg by lia.
  pose proof (Z.mod_pos_bound (sessionCount s) (longBreakInterval (settings s)) Hn).
  destruct (Z.eqb_spec (sessionCount s `mod` longBreakInterval (settings s)) 0); lia.
Qed.

Lemma session_number_in_range_witness :
  sessionNumber (hooks (initial ∅)) = 4 ∧ sessionNumber (hooks thirdDone) = 3.
Proof.
  destruct (session_number_in_range (hooks (initial ∅))) as (_ & H & _);
    [reflexivity | discriminate |].
  split; [apply H; reflexivity | reflexivity].
Defined.

Lemma formatTime_checked :
  forallb (λ n, String.eqb (formatTime (Z.of_nat n)) (mmss (Z.of_nat n)))
    (seq 0 (Z.to_nat 6000)) = true.
Proof. vm_compute. reflexivity. Qed.

(** X15: below 100 minutes the time is shown as MM:SS, five characters:
    the two decimal digits of the whole minutes, a colon, and the two
    decimal digits of the remaining seconds, with leading zeros. *)
Theorem formatTime_is_mm_ss seconds :
  0 ≤ seconds < 6000 →
  formatTime seconds =
    String (digit (seconds `div` 600))
      (String (digit ((seconds `div` 60) `mod` 10))
         (String colon
            (String (digit ((seconds `mod` 60) `div` 10))
               (String (digit ((seconds `mod` 60) `mod` 10)) "")))).
Proof.
  intros Hs. pose proof formatTime_checked as Hall.
  rewrite forallb_forall in Hall.
  specialize (Hall (Z.to_nat seconds)).
  rewrite Z2Nat.id in Hall by lia.
  apply String.eqb_eq, Hall, in_seq. lia.
Qed.

Lemma formatTime_is_mm_ss_witness : formatTime 1500 = "25:00" ∧ formatTime 299 = "04:59".
Proof.
  split.
  - rewrite (formatTime_is_mm_ss 1500); [reflexivity | lia].
  - rewrite (formatTime_is_mm_ss 299); [reflexivity | lia].
Defined.

End TimerEvents.
